(** * To-do list service (main.py): data model, session, handlers

    A shallow embedding of [main.py].  The relational table [items] is a
    finite map from the primary key to the remaining columns; a FastAPI
    handler is a computation in a state-and-exception monad over one
    SQLAlchemy session; an endpoint is request validation followed by the
    handler run inside [get_db].

    Python [int] is [Z]; Python [str] is [string] (the bytes of its UTF-8
    encoding, which is also what SQLite's BINARY collation compares);
    [Optional[str]] is [option string].  An [int] that a request hands
    to a statement (an id, [skip], [limit]) must fit a signed 64-bit SQLite
    integer; the ids the database itself assigns are idealised as
    unbounded.

    The table is the one [Base.metadata.create_all] creates from [Item]
    (lines 13-27): [id] is its primary key and [title] is UNIQUE. *)

From stdpp Require Import gmap strings list fin_maps sorting.
From Stdlib Require Import ZArith.

Set Warnings "-clear-no-such-hyp".

Local Open Scope string_scope.
Local Open Scope list_scope.
Local Open Scope Z_scope.

(** ** Exceptions *)

(** The exceptions a request can end in.  [HTTPException] is raised by the
    handlers (lines 85, 138, 153, 173); [RequestValidationError] by FastAPI
    when the body or the query string does not validate (HTTP 422);
    the others are not caught by the application (HTTP 500):
    [IntegrityError] is raised by the database when a statement violates a
    constraint, [OverflowError] by its driver when an [int] parameter of a
    statement does not fit a 64-bit SQLite integer.  A [ValueError] raised
    by a field validator is reported by the schema layer as a validation
    error of the request. *)
Inductive Exn :=
| HTTPException (status_code : Z) (detail : string)
| RequestValidationError (msg : string)
| IntegrityError
| InvalidRequestError
| AttributeError (name : string)
| ResponseValidationError
| OverflowError.

Definition status_of (e : Exn) : Z :=
  match e with
  | HTTPException c _ => c
  | RequestValidationError _ => 422
  | IntegrityError | InvalidRequestError | AttributeError _
  | ResponseValidationError | OverflowError => 500
  end.

(** ** The table *)

(** The columns of [items] besides the primary key (lines 19-22). *)
Module Row.
Record t := mk {
  title : string;
  description : option string;
  completed : bool;
  priority : Z
}.
End Row.

#[global] Instance Row_eq_dec : EqDecision Row.t.
Proof. solve_decision. Defined.

(** [class Item(Base)] (lines 13-22): an ORM object.  [id] is [None]
    until the object has been flushed. *)
Module Item.
Record t := mk {
  id : option Z;
  title : string;
  description : option string;
  completed : bool;
  priority : Z
}.
End Item.

(** [class ItemCreate(BaseModel)] (lines 30-37), after validation. *)
Module ItemCreate.
Record t := mk {
  title : string;
  description : option string;
  completed : bool;
  priority : Z
}.
End ItemCreate.

(** [class ItemOut(BaseModel)] (lines 49-57). *)
Module ItemOut.
Record t := mk {
  id : Z;
  title : string;
  description : option string;
  completed : bool;
  priority : Z
}.
End ItemOut.

(** The table [items]: [id] is an INTEGER PRIMARY KEY, so the table is
    keyed by it. *)
Abbreviation Table := (gmap Z Row.t).

Definition row_of (o : Item.t) : Row.t :=
  Row.mk (Item.title o) (Item.description o) (Item.completed o) (Item.priority o).

Definition item_of (k : Z) (r : Row.t) : Item.t :=
  Item.mk (Some k) (Row.title r) (Row.description r) (Row.completed r) (Row.priority r).

Definition by_key (a b : Z * Row.t) : Prop := a.1 ≤ b.1.

#[global] Instance by_key_dec : RelDecision by_key.
Proof. intros a b. unfold by_key. apply _. Defined.

(** [SELECT * FROM items]: a scan of the table in primary-key order. *)
Definition select (t : Table) : list (Z * Row.t) :=
  merge_sort by_key (map_to_list t).

(** The id SQLite gives to an inserted row: one more than the largest id
    in the table, 1 when the table is empty.  (When the largest 64-bit id
    is in use SQLite looks for an unused id at random; the model goes on
    counting.) *)
Definition next_rowid (t : Table) : Z :=
  match (map_to_list t).*1 with
  | [] => 1
  | k :: ks => 1 + foldr Z.max k ks
  end.

(** [title = Column(String, unique=True, ...)] (line 19): is [x] the title
    of a row other than row [self]? *)
Definition title_taken (t : Table) (self : option Z) (x : string) : bool :=
  bool_decide
    (Exists (λ kr : Z * Row.t, Some kr.1 ≠ self ∧ Row.title kr.2 = x) (map_to_list t)).

(** ** The session *)

(** The kinds of SQL statement the session sends to the database. *)
Inductive Stmt := SELECT | INSERT | UPDATE | DELETE | COMMIT.

(** The states of an ORM object with respect to its session. *)
Inductive ObjState := Transient | Pending | Persistent | Deleted | Detached.

Record Obj := mkObj { state : ObjState; attrs : Item.t }.

(** A [Session]: the database it is bound to, the ORM objects of the
    request (a Python reference to one is its index in [objects]) and the
    SQL statements that were carried out so far. *)
Record Session := mkSession {
  database : Table;
  objects : list Obj;
  trace : list Stmt
}.

Definition M (A : Type) : Type := Session → (Exn + A) * Session.

Definition ret {A} (a : A) : M A := λ s, (inr a, s).

Definition raise {A} (e : Exn) : M A := λ s, (inl e, s).

Definition bind {A B} (m : M A) (k : A → M B) : M B :=
  λ s, match m s with
       | (inl e, s') => (inl e, s')
       | (inr a, s') => k a s'
       end.

Notation "'let*' x ':=' m 'in' k" := (bind m (λ x, k))
  (at level 10, x name, m at level 100, k at level 200).
Notation "'do' m 'in' k" := (bind m (λ _, k))
  (at level 10, m at level 100, k at level 200).

Definition issue (q : Stmt) : M unit :=
  λ s, (inr tt, mkSession (database s) (objects s) (trace s ++ [q])).

Definition alloc (o : Obj) : M nat :=
  λ s, (inr (length (objects s)),
        mkSession (database s) (objects s ++ [o]) (trace s)).

Definition get_obj (h : nat) : M Obj :=
  λ s, match objects s !! h with
       | Some o => (inr o, s)
       | None => (inl InvalidRequestError, s)
       end.

Definition put_obj (h : nat) (o : Obj) : M unit :=
  λ s, (inr tt, mkSession (database s) (<[h := o]> (objects s)) (trace s)).

Definition get_table : M Table := λ s, (inr (database s), s).

(** [Item(title=..., description=..., completed=..., priority=...)]
    (lines 86-91). *)
Definition Item_new (title : string) (description : option string)
    (completed : bool) (priority : Z) : M nat :=
  alloc (mkObj Transient (Item.mk None title description completed priority)).

(** Rows fetched by a query become persistent objects of the session. *)
Fixpoint load_all (rows : list (Z * Row.t)) : M (list nat) :=
  match rows with
  | [] => ret []
  | kr :: rows' =>
      let* h := alloc (mkObj Persistent (item_of kr.1 kr.2)) in
      let* hs := load_all rows' in
      ret (h :: hs)
  end.

(** The signed 64-bit integers, the INTEGERs of SQLite. *)
Definition int64 (n : Z) : Prop := - 2 ^ 63 ≤ n < 2 ^ 63.

#[global] Instance int64_dec n : Decision (int64 n).
Proof. unfold int64. apply _. Defined.

(** The integers the driver can hand to a statement that looks up an id:
    the 64-bit ones.  The table of the model may hold larger ids (see
    [next_rowid]); the id of a stored row counts as one from the
    database. *)
Definition sqlite_integer (t : Table) (n : Z) : Prop :=
  int64 n ∨ is_Some (t !! n).

#[global] Instance sqlite_integer_dec t n : Decision (sqlite_integer t n).
Proof. unfold sqlite_integer. apply _. Defined.

(** Binding [int] parameters to a statement: the driver raises
    [OverflowError] when one does not fit, and the statement is not
    sent. *)
Definition bind_ints (ns : list Z) : M unit :=
  if decide (Forall int64 ns) then ret tt else raise OverflowError.

(** The criteria of the handlers: [Item.id == item_id] (lines 136, 151,
    171) and [Item.title == item.title] (line 84). *)
Inductive Criterion :=
| Item_id_eq (item_id : Z)
| Item_title_eq (title : string).

Definition satisfies (c : Criterion) (kr : Z * Row.t) : Prop :=
  match c with
  | Item_id_eq item_id => kr.1 = item_id
  | Item_title_eq title => Row.title kr.2 = title
  end.

#[global] Instance satisfies_dec c kr : Decision (satisfies c kr).
Proof. destruct c; simpl; apply _. Defined.

(** The [int] parameters of a criterion. *)
Definition int_params (c : Criterion) : list Z :=
  match c with
  | Item_id_eq item_id => [item_id]
  | Item_title_eq _ => []
  end.

(** [db.query(Item).filter(c).first()]: the first row of the scan that
    satisfies [c], loaded as a persistent object; [None] when no row does;
    [OverflowError], with no statement sent, when the id looked for is not
    a SQLite integer. *)
Definition query_filter_first (c : Criterion) : M (option nat) :=
  let* t := get_table in
  if decide (Forall (sqlite_integer t) (int_params c)) then
    do issue SELECT in
    let* hs := load_all (take 1 (filter (satisfies c) (select t))) in
    ret (head hs)
  else raise OverflowError.

(** [db.add(obj)]. *)
Definition add (h : nat) : M unit :=
  let* o := get_obj h in
  match state o with
  | Transient | Detached => put_obj h (mkObj Pending (attrs o))
  | Pending | Persistent => ret tt
  | Deleted => raise InvalidRequestError
  end.

(** [db.delete(obj)]. *)
Definition delete_obj (h : nat) : M unit :=
  let* o := get_obj h in
  match state o with
  | Persistent => put_obj h (mkObj Deleted (attrs o))
  | Deleted => ret tt
  | Transient | Pending | Detached => raise InvalidRequestError
  end.

(** Attribute assignment [obj.f = v], one function per column. *)
Definition setattr (f : Item.t → Item.t) (h : nat) : M unit :=
  let* o := get_obj h in put_obj h (mkObj (state o) (f (attrs o))).

Definition set_title (h : nat) (v : string) : M unit :=
  setattr (λ o, Item.mk (Item.id o) v (Item.description o) (Item.completed o) (Item.priority o)) h.

Definition set_description (h : nat) (v : option string) : M unit :=
  setattr (λ o, Item.mk (Item.id o) (Item.title o) v (Item.completed o) (Item.priority o)) h.

Definition set_completed (h : nat) (v : bool) : M unit :=
  setattr (λ o, Item.mk (Item.id o) (Item.title o) (Item.description o) v (Item.priority o)) h.

Definition set_priority (h : nat) (v : Z) : M unit :=
  setattr (λ o, Item.mk (Item.id o) (Item.title o) (Item.description o) (Item.completed o) v) h.

(** The unit of work for one object at flush time: the statement it
    issues, the table after it and the object after it; an exception when
    the statement violates the UNIQUE constraint on [title]. *)
Definition flush_obj (t : Table) (o : Obj) : Exn + (Table * Obj * list Stmt) :=
  match state o with
  | Pending =>
      if title_taken t None (Item.title (attrs o)) then inl IntegrityError
      else
        let k := match Item.id (attrs o) with Some k => k | None => next_rowid t end in
        match t !! k with
        | Some _ => inl IntegrityError
        | None =>
            inr (<[k := row_of (attrs o)]> t,
                 mkObj Persistent (item_of k (row_of (attrs o))), [INSERT])
        end
  | Persistent =>
      match Item.id (attrs o) with
      | None => inl InvalidRequestError
      | Some k =>
          match t !! k with
          | None => inl InvalidRequestError
          | Some r =>
              if decide (r = row_of (attrs o)) then inr (t, o, [])
              else if title_taken t (Some k) (Item.title (attrs o)) then inl IntegrityError
              else inr (<[k := row_of (attrs o)]> t, o, [UPDATE])
          end
      end
  | Deleted =>
      match Item.id (attrs o) with
      | None => inl InvalidRequestError
      | Some k => inr (delete k t, mkObj Detached (attrs o), [DELETE])
      end
  | Transient | Detached => inr (t, o, [])
  end.

Fixpoint flush (t : Table) (os : list Obj) : Exn + (Table * list Obj * list Stmt) :=
  match os with
  | [] => inr (t, [], [])
  | o :: os' =>
      match flush_obj t o with
      | inl e => inl e
      | inr (t1, o1, q1) =>
          match flush t1 os' with
          | inl e => inl e
          | inr (t2, os2, q2) => inr (t2, o1 :: os2, q1 ++ q2)
          end
      end
  end.

(** [db.commit()]: flush the pending changes and commit.  When a statement
    fails the exception propagates and the database keeps its last
    committed contents (the transaction is rolled back when [get_db]
    closes the session). *)
Definition commit : M unit :=
  λ s, match flush (database s) (objects s) with
       | inl e => (inl e, s)
       | inr (t', os', qs) => (inr tt, mkSession t' os' (trace s ++ qs ++ [COMMIT]))
       end.

(** [db.refresh(obj)]: reload the attributes of a persistent object. *)
Definition refresh (h : nat) : M unit :=
  let* o := get_obj h in
  match state o, Item.id (attrs o) with
  | Persistent, Some k =>
      let* t := get_table in
      do issue SELECT in
      match t !! k with
      | Some r => put_obj h (mkObj Persistent (item_of k r))
      | None => raise InvalidRequestError
      end
  | _, _ => raise InvalidRequestError
  end.

(** ** Validation *)

(** A JSON value under a key of the body, as the schema layer takes it
    against the declared type [A] of the key: [null], a value it converts
    to an [A], or a value it refuses, with the message of the refusal. *)
Inductive Json (A : Type) :=
| JNull
| JValue (a : A)
| JInvalid (msg : string).

Arguments JNull {A}.
Arguments JValue {A} a.
Arguments JInvalid {A} msg.

(** The JSON body of POST and PUT, key by key; [None] is an absent key. *)
Module ItemJson.
Record t := mk {
  title : option (Json string);
  description : option (Json string);
  completed : option (Json bool);
  priority : option (Json Z)
}.
End ItemJson.

(** A body whose keys, where present, carry values of the declared types
    ([description] absent or [null] is [None]). *)
Module ItemBody.
Record t := mk {
  title : option string;
  description : option string;
  completed : option bool;
  priority : option Z
}.
End ItemBody.

(** [ItemCreate.validate_priority] (lines 39-47); [inl] is the message of
    the [ValueError]. *)
Definition validate_priority (value : Z) : string + Z :=
  if negb (bool_decide (value ∈ [1; 2; 3]))
  then inl "Priority must be 1 (Low), 2 (Medium), or 3 (High)"
  else inr value.

(** A value under a key whose type does not admit [null]. *)
Definition convert {A} (type : string) (v : Json A) : string + A :=
  match v with
  | JValue a => inr a
  | JNull => inl (String.append "Input should be a valid " type)
  | JInvalid msg => inl msg
  end.

(** The fields of [ItemCreate] (lines 34-37), each from its key: [title]
    is required; [description] may be absent or [null]; [completed] and
    [priority] have defaults; the validator of lines 39-47 runs on a
    [priority] that is present and an integer. *)
Definition title_field (v : option (Json string)) : string + string :=
  match v with
  | None => inl "Field required"
  | Some v => convert "string" v
  end.

Definition description_field (v : option (Json string)) : string + option string :=
  match v with
  | None | Some JNull => inr None
  | Some (JValue x) => inr (Some x)
  | Some (JInvalid msg) => inl msg
  end.

Definition completed_field (v : option (Json bool)) : string + bool :=
  match v with
  | None => inr false
  | Some v => convert "boolean" v
  end.

Definition priority_field (v : option (Json Z)) : string + Z :=
  match v with
  | None => inr 1
  | Some v =>
      match convert "integer" v with
      | inl msg => inl msg
      | inr value =>
          match validate_priority value with
          | inl msg => inl (String.append "Value error, " msg)
          | inr value => inr value
          end
      end
  end.

(** Validation of a JSON body against [ItemCreate]; the message is that
    of the first field refused. *)
Definition ItemCreate_model_validate (j : ItemJson.t) : Exn + ItemCreate.t :=
  match title_field (ItemJson.title j) with
  | inl msg => inl (RequestValidationError msg)
  | inr title =>
      match description_field (ItemJson.description j) with
      | inl msg => inl (RequestValidationError msg)
      | inr description =>
          match completed_field (ItemJson.completed j) with
          | inl msg => inl (RequestValidationError msg)
          | inr completed =>
              match priority_field (ItemJson.priority j) with
              | inl msg => inl (RequestValidationError msg)
              | inr priority =>
                  inr (ItemCreate.mk title description completed priority)
              end
          end
      end
  end.

(** The same on a body whose keys carry values of the declared types:
    [title] is required, the other fields have defaults, and the validator
    runs on a [priority] that is present. *)
Definition ItemCreate_validate (b : ItemBody.t) : Exn + ItemCreate.t :=
  match ItemBody.title b with
  | None => inl (RequestValidationError "Field required")
  | Some title =>
      match from_option validate_priority (inr 1) (ItemBody.priority b) with
      | inl msg => inl (RequestValidationError (String.append "Value error, " msg))
      | inr priority =>
          inr (ItemCreate.mk title (ItemBody.description b)
                 (default false (ItemBody.completed b)) priority)
      end
  end.

(** A typed body as JSON. *)
Definition json (b : ItemBody.t) : ItemJson.t :=
  ItemJson.mk (JValue <$> ItemBody.title b) (JValue <$> ItemBody.description b)
    (JValue <$> ItemBody.completed b) (JValue <$> ItemBody.priority b).

(** Serialisation through [response_model=ItemOut] with
    [from_attributes] (lines 49-60): [id: int] refuses [None]. *)
Definition ItemOut_from_attributes (o : Item.t) : Exn + ItemOut.t :=
  match Item.id o with
  | None => inl ResponseValidationError
  | Some k =>
      inr (ItemOut.mk k (Item.title o) (Item.description o)
             (Item.completed o) (Item.priority o))
  end.

(** The query string of [GET /items/]; [None] is an absent parameter.
    [skip] and [limit], where present, are integers (lines 100-101): the
    properties of listings are about such requests. *)
Module ListQuery.
Record t := mk {
  skip : option Z;
  limit : option Z;
  sort_by : option string;
  sort_order : option string
}.
End ListQuery.

(** The same after validation: the arguments of [get_items]. *)
Module ListArgs.
Record t := mk {
  skip : Z;
  limit : Z;
  sort_by : string;
  sort_order : string
}.
End ListArgs.

(** [pattern="^(id|title|completed|priority)$"] (line 102) and
    [pattern="^(asc|desc)$"] (line 103): both are anchored alternations of
    literals, matched by the strings listed and no other. *)
Definition sort_by_pattern (x : string) : bool :=
  bool_decide (x ∈ ["id"; "title"; "completed"; "priority"]).

Definition sort_order_pattern (x : string) : bool :=
  bool_decide (x ∈ ["asc"; "desc"]).

(** Validation of the query string (lines 100-103): [skip] and [limit] are
    plain [int] parameters with defaults, [sort_by] and [sort_order] are
    checked against their patterns. *)
Definition ListQuery_validate (q : ListQuery.t) : Exn + ListArgs.t :=
  let skip := default 0 (ListQuery.skip q) in
  let limit := default 10 (ListQuery.limit q) in
  let sort_by := default "id" (ListQuery.sort_by q) in
  let sort_order := default "asc" (ListQuery.sort_order q) in
  if negb (sort_by_pattern sort_by)
  then inl (RequestValidationError "String should match pattern")
  else if negb (sort_order_pattern sort_order)
  then inl (RequestValidationError "String should match pattern")
  else inr (ListArgs.mk skip limit sort_by sort_order).

(** ** Ordering and pagination *)

Inductive Column := c_id | c_title | c_description | c_completed | c_priority.

(** [getattr(Item, name)] (lines 119, 121), for the names that are
    columns. *)
Definition getattr_Item (name : string) : Exn + Column :=
  if decide (name = "id") then inr c_id
  else if decide (name = "title") then inr c_title
  else if decide (name = "description") then inr c_description
  else if decide (name = "completed") then inr c_completed
  else if decide (name = "priority") then inr c_priority
  else inl (AttributeError name).

(** NULL sorts before every string. *)
Definition option_string_leb (x y : option string) : bool :=
  match x, y with
  | None, _ => true
  | Some _, None => false
  | Some a, Some b => String.leb a b
  end.

(** [asc(column)]: the ascending order of SQLite on the values of a
    column (a Boolean is stored as 0 or 1). *)
Definition asc (c : Column) (a b : Z * Row.t) : bool :=
  match c with
  | c_id => a.1 <=? b.1
  | c_title => String.leb (Row.title a.2) (Row.title b.2)
  | c_description => option_string_leb (Row.description a.2) (Row.description b.2)
  | c_completed => Z.b2z (Row.completed a.2) <=? Z.b2z (Row.completed b.2)
  | c_priority => Row.priority a.2 <=? Row.priority b.2
  end.

(** [desc(column)]. *)
Definition desc (c : Column) (a b : Z * Row.t) : bool := asc c b a.

(** Put a row into a sorted list, ahead of the first row it does not
    come after. *)
Fixpoint place (o : Z * Row.t → Z * Row.t → bool) (x : Z * Row.t)
    (sorted : list (Z * Row.t)) : list (Z * Row.t) :=
  match sorted with
  | [] => [x]
  | y :: rest => if o x y then x :: y :: rest else y :: place o x rest
  end.

(** [query.order_by(o)]: a stable sort; rows that compare equal keep the
    order of the scan, that is, the order of their ids. *)
Definition order_by (o : Z * Row.t → Z * Row.t → bool) (rows : list (Z * Row.t))
    : list (Z * Row.t) :=
  foldr (place o) [] rows.

(** [OFFSET n]: a negative offset skips nothing. *)
Definition offset {A} (n : Z) (rows : list A) : list A :=
  drop (Z.to_nat n) rows.

(** [LIMIT n]: a negative limit is no limit. *)
Definition limit {A} (n : Z) (rows : list A) : list A :=
  if n <? 0 then rows else take (Z.to_nat n) rows.

(** ** The handlers *)

Definition lift {A} (r : Exn + A) : M A := λ s, (r, s).

(** [create_item] (lines 75-95). *)
Definition create_item (item : ItemCreate.t) : M nat :=
  let* found := query_filter_first (Item_title_eq (ItemCreate.title item)) in
  match found with
  | Some _ => raise (HTTPException 400 "Item with this title already exists")
  | None =>
      let* db_item := Item_new (ItemCreate.title item) (ItemCreate.description item)
                        (ItemCreate.completed item) (ItemCreate.priority item) in
      do add db_item in
      do commit in
      do refresh db_item in
      ret db_item
  end.

(** [get_items] (lines 98-125). *)
Definition get_items (skip limit_ : Z) (sort_by sort_order : string) : M (list nat) :=
  let* query := get_table in
  let* column := lift (getattr_Item sort_by) in
  let ordering := if decide (sort_order = "asc") then asc column else desc column in
  do bind_ints [limit_; skip] in
  do issue SELECT in
  load_all (limit limit_ (offset skip (order_by ordering (select query)))).

(** [get_item] (lines 128-139). *)
Definition get_item (item_id : Z) : M nat :=
  let* db_item := query_filter_first (Item_id_eq item_id) in
  match db_item with
  | None => raise (HTTPException 404 "Item not found")
  | Some db_item => ret db_item
  end.

(** [update_item] (lines 142-160). *)
Definition update_item (item_id : Z) (item : ItemCreate.t) : M nat :=
  let* db_item := query_filter_first (Item_id_eq item_id) in
  match db_item with
  | None => raise (HTTPException 404 "Item not found")
  | Some db_item =>
      do set_title db_item (ItemCreate.title item) in
      do set_description db_item (ItemCreate.description item) in
      do set_completed db_item (ItemCreate.completed item) in
      do set_priority db_item (ItemCreate.priority item) in
      do commit in
      do refresh db_item in
      ret db_item
  end.

(** [delete_item] (lines 163-176). *)
Definition delete_item (item_id : Z) : M string :=
  let* db_item := query_filter_first (Item_id_eq item_id) in
  match db_item with
  | None => raise (HTTPException 404 "Item not found")
  | Some db_item =>
      do delete_obj db_item in
      do commit in
      ret "Item deleted"
  end.

(** [root] (lines 179-183). *)
Definition root : string := "Welcome to the To-Do List API".

(** ** The endpoints *)

(** A JSON response body. *)
Inductive Body :=
| JItem (item : ItemOut.t)
| JList (items : list ItemOut.t)
| JMessage (message : string).

(** What a request leaves behind: the response, the database and the SQL
    statements that were issued. *)
Record Outcome := mkOutcome {
  response : Exn + Body;
  db_after : Table;
  statements : list Stmt
}.

(** [SessionLocal()] (line 67). *)
Definition SessionLocal (d : Table) : Session := mkSession d [] [].

(** [get_db] (lines 63-71) around a handler: a new session on the
    database, closed when the handler is done. *)
Definition get_db (h : M Body) (d : Table) : Outcome :=
  let rs := h (SessionLocal d) in
  mkOutcome rs.1 (database rs.2) (trace rs.2).

(** A request refused by validation never opens the database. *)
Definition refuse (e : Exn) (d : Table) : Outcome := mkOutcome (inl e) d [].

Definition serialize (h : nat) : M ItemOut.t :=
  let* o := get_obj h in lift (ItemOut_from_attributes (attrs o)).

Fixpoint serialize_all (hs : list nat) : M (list ItemOut.t) :=
  match hs with
  | [] => ret []
  | h :: hs' =>
      let* x := serialize h in
      let* xs := serialize_all hs' in
      ret (x :: xs)
  end.

(** [response_model=ItemOut] (lines 74, 127, 141): the object a handler
    returns is serialised while the session is still open. *)
Definition respond_item (h : M nat) : M Body :=
  let* db_item := h in
  let* out := serialize db_item in
  ret (JItem out).

(** [response_model=List[ItemOut]] (line 97). *)
Definition respond_list (h : M (list nat)) : M Body :=
  let* items := h in
  let* out := serialize_all items in
  ret (JList out).

Definition respond_message (h : M string) : M Body :=
  let* message := h in ret (JMessage message).

(** [POST /items/] (line 74). *)
Definition POST_items_json (body : ItemJson.t) : Table → Outcome :=
  match ItemCreate_model_validate body with
  | inl e => refuse e
  | inr item => get_db (respond_item (create_item item))
  end.

(** [POST /items/] with a typed body. *)
Definition POST_items (body : ItemBody.t) : Table → Outcome :=
  match ItemCreate_validate body with
  | inl e => refuse e
  | inr item => get_db (respond_item (create_item item))
  end.

(** [GET /items/] (line 97). *)
Definition GET_items (q : ListQuery.t) : Table → Outcome :=
  match ListQuery_validate q with
  | inl e => refuse e
  | inr a =>
      get_db (respond_list (get_items (ListArgs.skip a) (ListArgs.limit a)
                              (ListArgs.sort_by a) (ListArgs.sort_order a)))
  end.

(** [GET /items/{item_id}] (line 127). *)
Definition GET_item (item_id : Z) : Table → Outcome :=
  get_db (respond_item (get_item item_id)).

(** [PUT /items/{item_id}] (line 141). *)
Definition PUT_item_json (item_id : Z) (body : ItemJson.t) : Table → Outcome :=
  match ItemCreate_model_validate body with
  | inl e => refuse e
  | inr item => get_db (respond_item (update_item item_id item))
  end.

(** [PUT /items/{item_id}] with a typed body. *)
Definition PUT_item (item_id : Z) (body : ItemBody.t) : Table → Outcome :=
  match ItemCreate_validate body with
  | inl e => refuse e
  | inr item => get_db (respond_item (update_item item_id item))
  end.

(** [DELETE /items/{item_id}] (line 162). *)
Definition DELETE_item (item_id : Z) : Table → Outcome :=
  get_db (respond_message (delete_item item_id)).

(** [GET /] (line 178). *)
Definition GET_root (d : Table) : Outcome := mkOutcome (inr (JMessage root)) d [].

(** The requests of the API, one constructor per route. *)
Inductive Request :=
| Create (body : ItemJson.t)
| List_ (q : ListQuery.t)
| Fetch (item_id : Z)
| Replace (item_id : Z) (body : ItemJson.t)
| Remove (item_id : Z)
| Root.

(** Routing. *)
Definition serve (r : Request) : Table → Outcome :=
  match r with
  | Create body => POST_items_json body
  | List_ q => GET_items q
  | Fetch item_id => GET_item item_id
  | Replace item_id body => PUT_item_json item_id body
  | Remove item_id => DELETE_item item_id
  | Root => GET_root
  end.

(** The databases the service can be in: the table is created empty at
    startup (line 27) and changes only through requests. *)
Inductive reachable : Table → Prop :=
| reachable_init : reachable ∅
| reachable_step d r : reachable d → reachable (db_after (serve r d)).

(** No two rows have the same title. *)
Definition titles_unique (d : Table) : Prop :=
  ∀ i j ri rj, d !! i = Some ri → d !! j = Some rj →
    Row.title ri = Row.title rj → i = j.

(** Some row has title [x]. *)
Definition has_title (d : Table) (x : string) : Prop :=
  ∃ k r, d !! k = Some r ∧ Row.title r = x.

(** ** Vocabulary of the properties *)

(** What a look-up answers for an id that has no row: not found, after
    the SELECT, when the id is a 64-bit integer; otherwise the
    [OverflowError] of the driver, with no statement sent. *)
Definition missing_id (d : Table) (k : Z) : Outcome :=
  if decide (int64 k)
  then mkOutcome (inl (HTTPException 404 "Item not found")) d [SELECT]
  else mkOutcome (inl OverflowError) d [].

(** The persistent object a fetched row is loaded into. *)
Definition loaded (kr : Z * Row.t) : Obj := mkObj Persistent (item_of kr.1 kr.2).

(** A stored row as the API shows it. *)
Definition shown (k : Z) (r : Row.t) : ItemOut.t :=
  ItemOut.mk k (Row.title r) (Row.description r) (Row.completed r) (Row.priority r).

(** The row an accepted payload is stored as. *)
Definition stored (item : ItemCreate.t) : Row.t :=
  Row.mk (ItemCreate.title item) (ItemCreate.description item)
    (ItemCreate.completed item) (ItemCreate.priority item).

(** The order a listing is asked for, on the tasks as the API shows them:
    by the value of the field named [sort_by] (integers by value, titles
    byte by byte, [false] before [true]), increasing for ["asc"] and
    decreasing otherwise. *)
Definition field_le (sort_by : string) (x y : ItemOut.t) : Prop :=
  if decide (sort_by = "id") then ItemOut.id x ≤ ItemOut.id y
  else if decide (sort_by = "title") then String.le (ItemOut.title x) (ItemOut.title y)
  else if decide (sort_by = "completed")
  then ItemOut.completed x = true → ItemOut.completed y = true
  else if decide (sort_by = "priority") then ItemOut.priority x ≤ ItemOut.priority y
  else True.

(** The direction: increasing for ["asc"], decreasing for ["desc"]. *)
Definition requested_order (sort_by sort_order : string) (x y : ItemOut.t) : Prop :=
  if decide (sort_order = "asc") then field_le sort_by x y else field_le sort_by y x.

(** Two rows that an ordering does not tell apart. *)
Definition tied (o : Z * Row.t → Z * Row.t → bool) (x y : Z * Row.t) : Prop :=
  o x y = true ∧ o y x = true.

#[global] Instance tied_dec o x y : Decision (tied o x y).
Proof. unfold tied. apply _. Defined.

(** [shown] on a row of a scan. *)
Definition show (kr : Z * Row.t) : ItemOut.t := shown kr.1 kr.2.

(** What a request can do to the table. *)
Inductive write (d : Table) : Table → Prop :=
| write_nothing : write d d
| write_insert item :
    title_taken d None (ItemCreate.title item) = false →
    write d (<[next_rowid d := stored item]> d)
| write_update k item :
    title_taken d (Some k) (ItemCreate.title item) = false →
    write d (<[k := stored item]> d)
| write_delete k : write d (delete k d).

(** The JSON body of a successful response. *)
Definition body_of (o : Outcome) : option Body :=
  match response o with inr b => Some b | inl _ => None end.

(** The HTTP status of a response. *)
Definition status (o : Outcome) : Z :=
  match response o with inr _ => 200 | inl e => status_of e end.

(** The tasks of a list response; none when the request is refused. *)
Definition listing (q : ListQuery.t) (d : Table) : list ItemOut.t :=
  match response (GET_items q d) with
  | inr (JList tasks) => tasks
  | _ => []
  end.

(** The row a task of a response stands for. *)
Definition row_shown (out : ItemOut.t) : Row.t :=
  Row.mk (ItemOut.title out) (ItemOut.description out)
    (ItemOut.completed out) (ItemOut.priority out).

(** Every stored priority is 1, 2 or 3. *)
Definition priorities_valid (d : Table) : Prop :=
  ∀ k r, d !! k = Some r → Row.priority r ∈ [1; 2; 3].

(** The request does not address task [j] with a PUT or a DELETE. *)
Definition spares (req : Request) (j : Z) : Prop :=
  match req with
  | Replace k _ | Remove k => k ≠ j
  | Create _ | List_ _ | Fetch _ | Root => True
  end.

(** Sample requests and tables. *)
Definition milk : ItemBody.t := ItemBody.mk (Some "buy milk") None None (Some 2).

Definition walk : ItemBody.t := ItemBody.mk (Some "walk") (Some "dog") (Some true) None.

Definition one_task : Table := {[ 1 := Row.mk "buy milk" None false 2 ]}.

Definition two_tasks : Table :=
  <[ 2 := Row.mk "walk" (Some "dog") true 1 ]> one_task.

(** Five open tasks, two of high and three of medium priority. *)
Definition five_tasks : Table :=
  list_to_map [(1, Row.mk "a" None false 2); (2, Row.mk "b" None false 3);
               (3, Row.mk "c" None false 2); (4, Row.mk "d" None false 3);
               (5, Row.mk "e" None false 2)].

(** * Properties *)

(** ** The table *)

Section table_facts.
Implicit Types (d : Table) (k : Z) (r : Row.t) (x : string).

Lemma elem_of_select d k r : (k, r) ∈ select d ↔ d !! k = Some r.
Proof.
  unfold select. rewrite merge_sort_Permutation. apply elem_of_map_to_list.
Qed.

Lemma select_Permutation d : select d ≡ₚ map_to_list d.
Proof. apply merge_sort_Permutation. Qed.

Lemma head_filter_elem {A} (P : A → Prop) `{!∀ a, Decision (P a)} (l : list A) a :
  head (filter P l) = Some a → P a ∧ a ∈ l.
Proof. intros Hin%head_Some_elem_of. by apply list_elem_of_filter in Hin. Qed.

Lemma head_filter_None {A} (P : A → Prop) `{!∀ a, Decision (P a)} (l : list A) :
  head (filter P l) = None ↔ ∀ a, a ∈ l → ¬ P a.
Proof.
  rewrite head_None. split.
  - intros E a Ha HP.
    assert (a ∈ filter P l) as Hin by by apply list_elem_of_filter.
    rewrite E in Hin. by apply not_elem_of_nil in Hin.
  - intros Hno. destruct (filter P l) as [|a l'] eqn:E; [done|].
    assert (a ∈ filter P l) as [HP Ha]%list_elem_of_filter by (rewrite E; left).
    by destruct (Hno a Ha).
Qed.

(** Looking a row up by its primary key. *)
Lemma head_filter_key d k :
  head (filter (satisfies (Item_id_eq k)) (select d)) = (λ r, (k, r)) <$> d !! k.
Proof.
  destruct (d !! k) as [r|] eqn:Hk; simpl.
  - destruct (head _) as [[k' r']|] eqn:Hh.
    + apply head_filter_elem in Hh as [Hk' Hin]. simpl in Hk'. subst k'.
      apply elem_of_select in Hin. congruence.
    + rewrite head_filter_None in Hh.
      destruct (Hh (k, r)); [by apply elem_of_select | done].
  - apply head_filter_None. intros [k' r'] Hin%elem_of_select Hk'.
    simpl in Hk'. congruence.
Qed.

(** Looking for a row with a given title. *)
Lemma head_filter_title_None d x :
  head (filter (satisfies (Item_title_eq x)) (select d)) = None
  ↔ ¬ has_title d x.
Proof.
  rewrite head_filter_None. split.
  - intros H (k & r & Hk & Hr). apply (H (k, r)); [by apply elem_of_select | done].
  - intros H [k r] Hin%elem_of_select Hr. apply H. by exists k, r.
Qed.

Lemma title_taken_true d self x :
  title_taken d self x = true
  ↔ ∃ k r, d !! k = Some r ∧ Some k ≠ self ∧ Row.title r = x.
Proof.
  unfold title_taken. rewrite bool_decide_eq_true, Exists_exists. split.
  - intros ([k r] & Hin%elem_of_map_to_list & Hne & Hx). by exists k, r.
  - intros (k & r & Hk & Hne & Hx). exists (k, r).
    split; [by apply elem_of_map_to_list | done].
Qed.

Lemma title_taken_None d x : title_taken d None x = true ↔ has_title d x.
Proof.
  rewrite title_taken_true. unfold has_title. split.
  - intros (k & r & Hk & _ & Hx). by exists k, r.
  - intros (k & r & Hk & Hx). by exists k, r.
Qed.

Lemma foldr_max_ge (k : Z) (ks : list Z) j :
  j ∈ k :: ks → j ≤ foldr Z.max k ks.
Proof.
  induction ks as [|k' ks IH]; simpl.
  - intros ->%list_elem_of_singleton. lia.
  - rewrite !elem_of_cons. intros [->|[->|Hin]].
    + etrans; [apply IH; left|]. lia.
    + lia.
    + etrans; [apply IH; by right|]. lia.
Qed.

(** Every id in use is below the next one. *)
Lemma next_rowid_above d k r : d !! k = Some r → k < next_rowid d.
Proof.
  intros Hk. unfold next_rowid.
  assert (k ∈ (map_to_list d).*1) as Hin.
  { apply list_elem_of_fmap. exists (k, r). by rewrite elem_of_map_to_list. }
  destruct ((map_to_list d).*1) as [|k0 ks]; [by apply not_elem_of_nil in Hin|].
  apply foldr_max_ge in Hin. lia.
Qed.

Lemma next_rowid_fresh d : d !! next_rowid d = None.
Proof.
  destruct (d !! next_rowid d) as [r|] eqn:E; [|done].
  apply next_rowid_above in E. lia.
Qed.
End table_facts.

(** ** The session *)

Section session_facts.
Implicit Types (s : Session) (d : Table).

Lemma load_all_run rows s :
  load_all rows s =
    (inr (seq (length (objects s)) (length rows)),
     mkSession (database s) (objects s ++ (loaded <$> rows)) (trace s)).
Proof.
  revert s. induction rows as [|kr rows IH]; intros [d os tr]; simpl.
  - unfold ret. by rewrite app_nil_r.
  - unfold bind, alloc, ret. simpl. rewrite IH. simpl.
    rewrite length_app, <- (assoc_L (++)). simpl.
    by rewrite Nat.add_1_r.
Qed.

Lemma query_filter_first_run (c : Criterion) s :
  Forall (sqlite_integer (database s)) (int_params c) →
  query_filter_first c s =
    match head (filter (satisfies c) (select (database s))) with
    | None =>
        (inr None, mkSession (database s) (objects s) (trace s ++ [SELECT]))
    | Some kr =>
        (inr (Some (length (objects s))),
         mkSession (database s) (objects s ++ [loaded kr]) (trace s ++ [SELECT]))
    end.
Proof.
  intros Hfit. unfold query_filter_first, bind, get_table. cbn [fst snd].
  rewrite decide_True by done. unfold issue, ret.
  rewrite load_all_run. simpl.
  destruct (filter (satisfies c) (select (database s))) as [|kr l]; simpl.
  - by rewrite app_nil_r.
  - done.
Qed.

Lemma query_title_first_run (x : string) s :
  query_filter_first (Item_title_eq x) s =
    match head (filter (satisfies (Item_title_eq x)) (select (database s))) with
    | None =>
        (inr None, mkSession (database s) (objects s) (trace s ++ [SELECT]))
    | Some kr =>
        (inr (Some (length (objects s))),
         mkSession (database s) (objects s ++ [loaded kr]) (trace s ++ [SELECT]))
    end.
Proof. apply query_filter_first_run. constructor. Qed.

(** Looking up an id: the row, no row, or an id that does not fit. *)
Lemma query_id_first_run (k : Z) s :
  query_filter_first (Item_id_eq k) s =
    match database s !! k with
    | Some r =>
        (inr (Some (length (objects s))),
         mkSession (database s) (objects s ++ [loaded (k, r)]) (trace s ++ [SELECT]))
    | None =>
        if decide (int64 k)
        then (inr None, mkSession (database s) (objects s) (trace s ++ [SELECT]))
        else (inl OverflowError, s)
    end.
Proof.
  destruct (database s !! k) as [r|] eqn:Hk.
  - rewrite query_filter_first_run, head_filter_key, Hk; [done|].
    apply Forall_singleton. right. by rewrite Hk.
  - destruct (decide (int64 k)) as [Hfit|Hfit].
    + rewrite query_filter_first_run, head_filter_key, Hk; [done|].
      apply Forall_singleton. by left.
    + unfold query_filter_first, bind, get_table. cbn [fst snd].
      rewrite decide_False; [done|].
      intros [Hi|Hi]%Forall_singleton; [done|]. rewrite Hk in Hi. by destruct Hi.
Qed.

(** Objects that were just loaded serialise to the rows they were
    loaded from. *)
Lemma serialize_all_loaded d (os : list Obj) tr (rows : list (Z * Row.t)) :
  serialize_all (seq (length os) (length rows))
    (mkSession d (os ++ (loaded <$> rows)) tr) =
    (inr ((λ kr, shown kr.1 kr.2) <$> rows),
     mkSession d (os ++ (loaded <$> rows)) tr).
Proof.
  revert os. induction rows as [|kr rows IH]; intros os; [done|].
  specialize (IH (os ++ [loaded kr])).
  rewrite length_app, Nat.add_1_r, <- (assoc_L (++)) in IH.
  cbn [length seq serialize_all fmap list_fmap].
  unfold bind at 1. unfold serialize at 1. unfold bind at 1.
  unfold get_obj. cbn [objects].
  rewrite list_lookup_middle by done.
  unfold lift, bind. cbn in IH |- *. by rewrite IH.
Qed.
End session_facts.

(** ** Ordering and pagination *)

Section ordering_facts.
Implicit Types (c : Column) (a b e : Z * Row.t).

Lemma string_leb_trans (x y z : string) :
  String.leb x y = true → String.leb y z = true → String.leb x z = true.
Proof.
  intros Hxy%Is_true_true Hyz%Is_true_true. apply Is_true_true.
  change (String.le x z). by trans y.
Qed.

Lemma option_string_leb_total (x y : option string) :
  option_string_leb x y = true ∨ option_string_leb y x = true.
Proof. destruct x, y; simpl; auto using String.leb_total. Qed.

Lemma option_string_leb_trans (x y z : option string) :
  option_string_leb x y = true → option_string_leb y z = true →
  option_string_leb x z = true.
Proof.
  destruct x as [x|], y as [y|], z as [z|]; simpl; try done.
  apply string_leb_trans.
Qed.

Lemma asc_total c a b : asc c a b = true ∨ asc c b a = true.
Proof.
  destruct c; simpl;
    auto using String.leb_total, option_string_leb_total;
    rewrite !Z.leb_le; lia.
Qed.

Lemma asc_trans c a b e : asc c a b = true → asc c b e = true → asc c a e = true.
Proof.
  destruct c; simpl;
    eauto using string_leb_trans, option_string_leb_trans;
    rewrite !Z.leb_le; lia.
Qed.

Lemma desc_total c a b : desc c a b = true ∨ desc c b a = true.
Proof. apply asc_total. Qed.

Lemma desc_trans c a b e : desc c a b = true → desc c b e = true → desc c a e = true.
Proof. unfold desc. eauto using asc_trans. Qed.

Lemma place_Permutation o x rows : place o x rows ≡ₚ x :: rows.
Proof.
  induction rows as [|y rows IH]; simpl; [done|].
  destruct (o x y); [done|]. by rewrite IH, Permutation_swap.
Qed.

Lemma order_by_Permutation o rows : order_by o rows ≡ₚ rows.
Proof.
  induction rows as [|x rows IH]; simpl; [done|].
  by rewrite place_Permutation, IH.
Qed.

Lemma place_Sorted o x rows :
  (∀ a b, o a b = true ∨ o b a = true) →
  Sorted (λ a b, Is_true (o a b)) rows →
  Sorted (λ a b, Is_true (o a b)) (place o x rows).
Proof.
  intros Htot. induction 1 as [|y rows Hs IH Hhd]; simpl.
  - by repeat constructor.
  - destruct (o x y) eqn:Hxy.
    + repeat constructor; [done..|by rewrite Hxy].
    + constructor; [done|].
      assert (Is_true (o y x)) as Hyx.
      { destruct (Htot x y) as [H1|H1]; [congruence|by rewrite H1]. }
      destruct Hhd as [|z rows Hyz]; simpl; [by constructor|].
      destruct (o x z); by constructor.
Qed.

Lemma order_by_Sorted o rows :
  (∀ a b, o a b = true ∨ o b a = true) →
  Sorted (λ a b, Is_true (o a b)) (order_by o rows).
Proof.
  intros Htot. induction rows as [|x rows IH]; simpl; [constructor|].
  by apply place_Sorted.
Qed.

(** Rows that all compare equal keep the order they came in. *)
Lemma order_by_ties o rows :
  (∀ a b, a ∈ rows → b ∈ rows → o a b = true) → order_by o rows = rows.
Proof.
  induction rows as [|x rows IH]; intros Hties; simpl; [done|].
  rewrite IH by (intros a b Ha Hb; apply Hties; by right).
  destruct rows as [|y rows]; simpl; [done|].
  by rewrite Hties by (repeat constructor).
Qed.

Lemma filter_place_other (P : Z * Row.t → Prop) `{!∀ y, Decision (P y)} o x rows :
  ¬ P x → filter P (place o x rows) = filter P rows.
Proof.
  intros Hx. induction rows as [|y rows IH]; simpl.
  - by rewrite filter_cons_False.
  - destruct (o x y).
    + by rewrite filter_cons_False.
    + rewrite !filter_cons. by rewrite IH.
Qed.

Lemma filter_place_first (P : Z * Row.t → Prop) `{!∀ y, Decision (P y)} o x rows :
  P x → (∀ y, y ∈ rows → o x y = false → ¬ P y) →
  filter P (place o x rows) = x :: filter P rows.
Proof.
  intros Hx Hbefore. induction rows as [|y rows IH]; simpl.
  - by rewrite filter_cons_True.
  - destruct (o x y) eqn:Hxy.
    + by rewrite filter_cons_True.
    + rewrite !(filter_cons_False _ y) by (apply Hbefore; [by left|done]).
      apply IH. intros z Hz. apply Hbefore. by right.
Qed.

(** The sort is stable: the rows that an ordering does not tell apart
    from a given row come out in the order they came in. *)
Lemma order_by_stable o x rows :
  (∀ a b e, o a b = true → o b e = true → o a e = true) →
  filter (tied o x) (order_by o rows) = filter (tied o x) rows.
Proof.
  intros Htrans. induction rows as [|y rows IH]; simpl; [done|].
  destruct (decide (tied o x y)) as [[Hxy Hyx]|Hno].
  - rewrite filter_place_first, filter_cons_True, IH; [done..|].
    intros z _ Hyz [Hxz Hzx]. by rewrite (Htrans y x z) in Hyz.
  - by rewrite filter_place_other, filter_cons_False, IH.
Qed.


Lemma Sorted_limit_offset {A} (R : relation A) `{!Transitive R} n m (l : list A) :
  Sorted R l → Sorted R (limit n (offset m l)).
Proof.
  intros Hs%Sorted_StronglySorted; [|done].
  apply StronglySorted_Sorted. unfold limit, offset.
  assert (StronglySorted R (drop (Z.to_nat m) l)) as Hd.
  { rewrite <- (take_drop (Z.to_nat m) l) in Hs.
    by apply StronglySorted_app_1_r in Hs. }
  destruct (n <? 0); [done|].
  rewrite <- (take_drop (Z.to_nat n) (drop _ l)) in Hd.
  by apply StronglySorted_app_1_l in Hd.
Qed.


End ordering_facts.

#[local] Arguments select : simpl never.
#[local] Arguments next_rowid : simpl never.
#[local] Arguments title_taken : simpl never.

(** Run the query a handler starts with, in the session of [get_db]. *)
Ltac first_query :=
  unfold respond_item, respond_message, bind, SessionLocal;
  rewrite ?query_id_first_run, ?query_title_first_run;
  cbn [database objects trace].

Section endpoint_facts.
Implicit Types (d : Table) (k : Z) (r : Row.t).

Lemma get_db_intro (h : M Body) d res s t q :
  h (SessionLocal d) = (res, s) → database s = t → trace s = q →
  get_db h d = mkOutcome res t q.
Proof. unfold get_db. by intros -> <- <-. Qed.

Lemma title_taken_head d x :
  title_taken d None x = false ↔
  head (filter (satisfies (Item_title_eq x)) (select d)) = None.
Proof.
  rewrite head_filter_title_None, <- title_taken_None.
  by destruct (title_taken d None x).
Qed.

Lemma GET_item_run d k :
  GET_item k d =
    match d !! k with
    | Some r => mkOutcome (inr (JItem (shown k r))) d [SELECT]
    | None => missing_id d k
    end.
Proof.
  unfold GET_item, get_db, get_item, missing_id. first_query.
  destruct (d !! k); [done|]. by destruct (decide (int64 k)).
Qed.

Lemma create_item_run d item :
  get_db (respond_item (create_item item)) d =
    if title_taken d None (ItemCreate.title item)
    then mkOutcome (inl (HTTPException 400 "Item with this title already exists"))
           d [SELECT]
    else mkOutcome (inr (JItem (shown (next_rowid d) (stored item))))
           (<[next_rowid d := stored item]> d) [SELECT; INSERT; COMMIT; SELECT].
Proof.
  destruct (title_taken d None _) eqn:Ht.
  - destruct (head (filter (satisfies (Item_title_eq (ItemCreate.title item)))
                      (select d))) as [kr|] eqn:Hh.
    2:{ apply title_taken_head in Hh. congruence. }
    eapply get_db_intro.
    + unfold create_item. first_query. by rewrite Hh.
    + reflexivity.
    + reflexivity.
  - pose proof Ht as Hh. apply title_taken_head in Hh.
    eapply get_db_intro.
    + unfold create_item. first_query. rewrite Hh. cbn. unfold commit. cbn.
      rewrite Ht, next_rowid_fresh. cbn. rewrite lookup_insert_eq. reflexivity.
    + reflexivity.
    + reflexivity.
Qed.

Lemma update_item_run d k item :
  get_db (respond_item (update_item k item)) d =
    match d !! k with
    | None => missing_id d k
    | Some r =>
        if decide (r = stored item)
        then mkOutcome (inr (JItem (shown k r))) d [SELECT; COMMIT; SELECT]
        else if title_taken d (Some k) (ItemCreate.title item)
        then mkOutcome (inl IntegrityError) d [SELECT]
        else mkOutcome (inr (JItem (shown k (stored item))))
               (<[k := stored item]> d) [SELECT; UPDATE; COMMIT; SELECT]
    end.
Proof.
  destruct (d !! k) as [r|] eqn:Hk.
  2:{ unfold missing_id. destruct (decide (int64 k)) as [Hfit|Hfit].
      all: eapply get_db_intro;
        [ unfold update_item; first_query; rewrite Hk;
          (rewrite decide_True by done) || (rewrite decide_False by done) | .. ];
        reflexivity. }
  destruct (decide (r = stored item)) as [Hr|Hr];
    [|destruct (title_taken d (Some k) _) eqn:Ht].
  all: eapply get_db_intro;
    [ unfold update_item; first_query; rewrite Hk;
      cbn; unfold commit; cbn; rewrite Hk;
      change (row_of _) with (stored item) | .. ].
  - rewrite decide_True by done. cbn. rewrite Hk. by subst r.
  - reflexivity.
  - reflexivity.
  - rewrite decide_False by done. by rewrite Ht.
  - reflexivity.
  - reflexivity.
  - rewrite decide_False by done. rewrite Ht. cbn.
    by rewrite lookup_insert_eq.
  - reflexivity.
  - reflexivity.
Qed.

Lemma DELETE_item_run d k :
  DELETE_item k d =
    match d !! k with
    | None => missing_id d k
    | Some r => mkOutcome (inr (JMessage "Item deleted")) (delete k d)
                  [SELECT; DELETE; COMMIT]
    end.
Proof.
  unfold DELETE_item, missing_id.
  destruct (d !! k) as [r|] eqn:Hk; [|destruct (decide (int64 k)) as [Hfit|Hfit]].
  all: eapply get_db_intro;
    [ unfold delete_item; first_query; rewrite Hk;
      try ((rewrite decide_True by done) || (rewrite decide_False by done)) | .. ];
    reflexivity.
Qed.

Lemma GET_items_run d q a c :
  ListQuery_validate q = inr a →
  getattr_Item (ListArgs.sort_by a) = inr c →
  GET_items q d =
    if decide (int64 (ListArgs.skip a) ∧ int64 (ListArgs.limit a))
    then
      mkOutcome
        (inr (JList (show <$>
           limit (ListArgs.limit a) (offset (ListArgs.skip a)
             (order_by (if decide (ListArgs.sort_order a = "asc") then asc c else desc c)
                (select d))))))
        d [SELECT]
    else mkOutcome (inl OverflowError) d [].
Proof.
  intros Hv Hc. unfold GET_items. rewrite Hv.
  assert (Forall int64 [ListArgs.limit a; ListArgs.skip a]
          ↔ int64 (ListArgs.skip a) ∧ int64 (ListArgs.limit a)) as Hfit.
  { rewrite Forall_cons, Forall_singleton. tauto. }
  destruct (decide (int64 (ListArgs.skip a) ∧ int64 (ListArgs.limit a))) as [Hin|Hout].
  - eapply get_db_intro.
    + unfold respond_list, get_items, bind, SessionLocal, get_table, lift, bind_ints.
      rewrite Hc. cbn [fst snd]. rewrite decide_True by by apply Hfit.
      unfold ret, issue. cbn [fst snd].
      rewrite load_all_run. cbn [database objects trace].
      by rewrite (serialize_all_loaded d []).
    + reflexivity.
    + reflexivity.
  - eapply get_db_intro.
    + unfold respond_list, get_items, bind, SessionLocal, get_table, lift, bind_ints.
      rewrite Hc. cbn [fst snd]. rewrite decide_False by by rewrite Hfit.
      reflexivity.
    + reflexivity.
    + reflexivity.
Qed.
End endpoint_facts.

(** ** Validation *)

Section validation_facts.
Implicit Types (body : ItemBody.t) (item : ItemCreate.t) (p : Z).

Lemma validate_priority_inr p v :
  validate_priority p = inr v ↔ p ∈ [1; 2; 3] ∧ v = p.
Proof.
  unfold validate_priority. case_bool_decide; simpl; naive_solver.
Qed.

Lemma validate_priority_inl p msg :
  validate_priority p = inl msg → p ∉ [1; 2; 3].
Proof. unfold validate_priority. by case_bool_decide. Qed.

Lemma priority_range p : p ∈ [1; 2; 3] ↔ p = 1 ∨ p = 2 ∨ p = 3.
Proof. rewrite !elem_of_cons, elem_of_nil. naive_solver. Qed.

(** What validation accepts, and what it makes of it. *)
Lemma ItemCreate_validate_inr body item :
  ItemCreate_validate body = inr item ↔
  ∃ title priority,
    ItemBody.title body = Some title ∧
    priority = default 1 (ItemBody.priority body) ∧
    priority ∈ [1; 2; 3] ∧
    item = ItemCreate.mk title (ItemBody.description body)
             (default false (ItemBody.completed body)) priority.
Proof.
  unfold ItemCreate_validate.
  destruct (ItemBody.title body) as [title|]; [|naive_solver].
  destruct (ItemBody.priority body) as [p|]; simpl.
  - destruct (validate_priority p) as [msg|v] eqn:Hp.
    + apply validate_priority_inl in Hp. naive_solver.
    + apply validate_priority_inr in Hp as [Hin ->]. naive_solver.
  - split.
    + intros [= <-]. exists title, 1. split_and!; [done|done|set_solver|done].
    + intros (? & ? & [= <-] & -> & _ & ->). done.
Qed.

Lemma ListQuery_validate_inr (q : ListQuery.t) (a : ListArgs.t) :
  ListQuery_validate q = inr a ↔
    a = ListArgs.mk (default 0 (ListQuery.skip q)) (default 10 (ListQuery.limit q))
          (default "id" (ListQuery.sort_by q)) (default "asc" (ListQuery.sort_order q)) ∧
    sort_by_pattern (ListArgs.sort_by a) = true ∧
    sort_order_pattern (ListArgs.sort_order a) = true.
Proof.
  unfold ListQuery_validate.
  destruct (sort_by_pattern (default "id" _)) eqn:Hb; simpl;
    [destruct (sort_order_pattern (default "asc" _)) eqn:Ho; simpl|].
  - split; [by intros [= <-]|by intros [-> _]].
  - split; [done|]. intros (-> & _ & Ho'). simpl in Ho'. congruence.
  - split; [done|]. intros (-> & Hb' & _). simpl in Hb'. congruence.
Qed.

(** A sort field that matches the pattern names a column. *)
Lemma sort_by_pattern_column (x : string) :
  sort_by_pattern x = true → ∃ c, getattr_Item x = inr c.
Proof.
  intros Hp%bool_decide_eq_true_1.
  repeat (apply elem_of_cons in Hp as [->|Hp]);
    [..|by apply not_elem_of_nil in Hp]; by eexists.
Qed.


(** On a typed body the JSON validation is the typed one. *)
Lemma ItemCreate_model_validate_json (b : ItemBody.t) :
  ItemCreate_model_validate (json b) = ItemCreate_validate b.
Proof.
  destruct b as [[t|] [x|] [b|] [p|]]; unfold ItemCreate_model_validate,
    ItemCreate_validate; simpl; try done; by destruct (validate_priority p).
Qed.

Lemma POST_items_json_typed (b : ItemBody.t) (d : Table) :
  POST_items_json (json b) d = POST_items b d.
Proof. unfold POST_items_json, POST_items. by rewrite ItemCreate_model_validate_json. Qed.

Lemma PUT_item_json_typed (k : Z) (b : ItemBody.t) (d : Table) :
  PUT_item_json k (json b) d = PUT_item k b d.
Proof. unfold PUT_item_json, PUT_item. by rewrite ItemCreate_model_validate_json. Qed.


Lemma priority_field_inr (v : option (Json Z)) (p : Z) :
  priority_field v = inr p → p ∈ [1; 2; 3].
Proof.
  destruct v as [[|value|msg]|]; simpl; try done.
  - destruct (validate_priority value) as [msg|p'] eqn:Hp; [done|].
    intros [= <-]. by apply validate_priority_inr in Hp as [Hin ->].
  - intros [= <-]. set_solver.
Qed.

Lemma ItemCreate_model_validate_priority (j : ItemJson.t) (item : ItemCreate.t) :
  ItemCreate_model_validate j = inr item → ItemCreate.priority item ∈ [1; 2; 3].
Proof.
  unfold ItemCreate_model_validate.
  destruct (title_field _); [done|].
  destruct (description_field _); [done|].
  destruct (completed_field _); [done|].
  destruct (priority_field _) as [|p] eqn:Hp; [done|].
  intros [= <-]. by apply priority_field_inr in Hp.
Qed.
End validation_facts.

(** ** Writes *)

Section write_facts.
Implicit Types (d : Table) (k : Z) (r : Row.t).

Lemma titles_unique_empty : titles_unique ∅.
Proof. intros i j ri rj Hi. by rewrite lookup_empty in Hi. Qed.

Lemma titles_unique_insert d k r :
  titles_unique d → title_taken d (Some k) (Row.title r) = false →
  titles_unique (<[k := r]> d).
Proof.
  intros Hu Ht i j ri rj.
  assert (∀ j rj, d !! j = Some rj → j ≠ k → Row.title rj ≠ Row.title r) as Hfree.
  { intros j' rj' Hj Hne Heq. apply not_true_iff_false in Ht. apply Ht.
    apply title_taken_true. exists j', rj'. split_and!; [done|congruence|done]. }
  rewrite !lookup_insert.
  repeat case_decide; subst; intros ???; simplify_eq; try done.
  - by destruct (Hfree j rj).
  - by destruct (Hfree i ri).
  - eauto.
Qed.

Lemma titles_unique_two_tasks : titles_unique two_tasks.
Proof.
  unfold two_tasks, one_task.
  apply titles_unique_insert; [|by vm_compute].
  rewrite <- insert_empty.
  apply titles_unique_insert; [apply titles_unique_empty | by vm_compute].
Qed.

Lemma titles_unique_delete d k : titles_unique d → titles_unique (delete k d).
Proof.
  intros Hu i j ri rj. rewrite !lookup_delete.
  repeat case_decide; try done. apply Hu.
Qed.

Lemma title_taken_weaken d k x :
  title_taken d None x = false → title_taken d (Some k) x = false.
Proof.
  intros Hn. apply not_true_iff_false. apply not_true_iff_false in Hn.
  rewrite title_taken_true in *. intros (j & r & Hj & _ & Hx).
  apply Hn. exists j, r. done.
Qed.

Lemma write_titles_unique d d' : write d d' → titles_unique d → titles_unique d'.
Proof.
  intros Hw Hu. inversion Hw as [|item Ht|k item Ht|k]; subst.
  - done.
  - apply titles_unique_insert; [done|]. by apply title_taken_weaken.
  - by apply titles_unique_insert.
  - by apply titles_unique_delete.
Qed.

(** Every request is one of these writes. *)
Lemma serve_write req d : write d (db_after (serve req d)).
Proof.
  destruct req as [body|q|k|k body|k|]; cbn [serve].
  - unfold POST_items_json.
    destruct (ItemCreate_model_validate body) as [e|item]; [constructor|].
    rewrite create_item_run.
    destruct (title_taken d None _) eqn:Ht; simpl; by constructor.
  - destruct (ListQuery_validate q) as [e|a] eqn:Hv.
    { unfold GET_items. rewrite Hv. constructor. }
    pose proof Hv as (_ & Hb & _)%ListQuery_validate_inr.
    apply sort_by_pattern_column in Hb as [c Hc].
    rewrite (GET_items_run d q a c Hv Hc). case_decide; constructor.
  - rewrite GET_item_run. unfold missing_id.
    destruct (d !! k); [|case_decide]; constructor.
  - unfold PUT_item_json.
    destruct (ItemCreate_model_validate body) as [e|item]; [constructor|].
    rewrite update_item_run. unfold missing_id.
    destruct (d !! k) as [r|]; [|case_decide; constructor].
    case_decide; [constructor|].
    destruct (title_taken d (Some k) _) eqn:Ht; simpl; by constructor.
  - rewrite DELETE_item_run. unfold missing_id.
    destruct (d !! k); [|case_decide]; constructor.
  - constructor.
Qed.

(** An update that would give a task the title of another one is refused
    at commit, and the table stays as it was. *)
Lemma update_item_taken d k r item j rj :
  titles_unique d →
  d !! k = Some r → d !! j = Some rj → j ≠ k →
  Row.title rj = ItemCreate.title item →
  get_db (respond_item (update_item k item)) d = mkOutcome (inl IntegrityError) d [SELECT].
Proof.
  intros Hu Hk Hj Hne Ht. rewrite update_item_run, Hk.
  rewrite decide_False.
  - assert (title_taken d (Some k) (ItemCreate.title item) = true) as ->; [|done].
    apply title_taken_true. exists j, rj. split_and!; [done|congruence|done].
  - intros ->. apply Hne. by apply (Hu j k rj (stored item)).
Qed.
End write_facts.

(** ** The service on sample requests *)

(** Create a task, create it again, fetch it, delete it, fetch it. *)
Example scenario :
  let o1 := POST_items milk ∅ in
  let o2 := POST_items milk (db_after o1) in
  let o3 := GET_item 1 (db_after o2) in
  let o4 := DELETE_item 1 (db_after o3) in
  let o5 := GET_item 1 (db_after o4) in
  body_of o1 = Some (JItem (ItemOut.mk 1 "buy milk" None false 2)) ∧
  db_after o1 = one_task ∧
  status o2 = 400 ∧
  body_of o3 = body_of o1 ∧
  body_of o4 = Some (JMessage "Item deleted") ∧
  status o5 = 404 ∧
  db_after o5 = ∅.
Proof. by vm_compute. Qed.

Example second_task : db_after (POST_items walk one_task) = two_tasks.
Proof. by vm_compute. Qed.

Example list_by_priority_desc :
  body_of (GET_items (ListQuery.mk None None (Some "priority") (Some "desc")) two_tasks)
  = Some (JList [ItemOut.mk 1 "buy milk" None false 2;
                 ItemOut.mk 2 "walk" (Some "dog") true 1]).
Proof. by vm_compute. Qed.

Example list_by_title_desc_second_page :
  body_of (GET_items (ListQuery.mk (Some 1) (Some 1) (Some "title") (Some "desc")) two_tasks)
  = Some (JList [ItemOut.mk 1 "buy milk" None false 2]).
Proof. by vm_compute. Qed.

Example list_negative_skip_and_limit :
  body_of (GET_items (ListQuery.mk (Some (-3)) (Some (-1)) (Some "completed") None) two_tasks)
  = Some (JList [ItemOut.mk 1 "buy milk" None false 2;
                 ItemOut.mk 2 "walk" (Some "dog") true 1]).
Proof. by vm_compute. Qed.

(** Tasks that the sort field does not tell apart are listed in the order
    of their ids, in both directions. *)
Example list_ties_keep_id_order :
  ItemOut.id <$> listing (ListQuery.mk None None (Some "completed") None) five_tasks
  = [1; 2; 3; 4; 5] ∧
  ItemOut.id <$> listing (ListQuery.mk None None (Some "completed") (Some "desc")) five_tasks
  = [1; 2; 3; 4; 5] ∧
  ItemOut.id <$> listing (ListQuery.mk None None (Some "priority") None) five_tasks
  = [1; 3; 5; 2; 4] ∧
  ItemOut.id <$> listing (ListQuery.mk None None (Some "priority") (Some "desc")) five_tasks
  = [2; 4; 1; 3; 5] ∧
  ItemOut.id <$> listing (ListQuery.mk (Some 2) (Some 1) (Some "priority") (Some "desc"))
                   five_tasks
  = [1].
Proof. by vm_compute. Qed.

Example list_skip_overflow :
  status (GET_items (ListQuery.mk (Some (- 2 ^ 63 - 1)) None None None) two_tasks) = 500 ∧
  statements (GET_items (ListQuery.mk (Some (- 2 ^ 63 - 1)) None None None) two_tasks) = [].
Proof. by vm_compute. Qed.

Example fetch_id_overflow :
  status (GET_item (2 ^ 63) two_tasks) = 500 ∧
  statements (GET_item (2 ^ 63) two_tasks) = [] ∧
  status (GET_item (2 ^ 63 - 1) two_tasks) = 404.
Proof. by vm_compute. Qed.

Example null_completed_refused :
  status (POST_items_json
            (ItemJson.mk (Some (JValue "x")) None (Some JNull) None) two_tasks) = 422.
Proof. by vm_compute. Qed.

Example list_unknown_sort_field :
  status (GET_items (ListQuery.mk None None (Some "description") None) two_tasks) = 422.
Proof. by vm_compute. Qed.

Example priority_out_of_range :
  status (POST_items (ItemBody.mk (Some "x") None None (Some 0)) two_tasks) = 422.
Proof. by vm_compute. Qed.

(** * The claims *)

(** C1. In every reachable database no two tasks have the same title, and
    every request (create, update, delete and the reads) preserves this:
    the pre-check of [create_item] and the UNIQUE constraint of the
    [title] column refuse the writes that would break it. *)
Theorem titles_unique_invariant :
  (∀ d, reachable d → titles_unique d) ∧
  (∀ d req, titles_unique d → titles_unique (db_after (serve req d))).
Proof.
  assert (∀ d req, titles_unique d → titles_unique (db_after (serve req d))) as Hstep.
  { intros d req. apply write_titles_unique, serve_write. }
  split; [|done].
  induction 1 as [|d req _ IH]; [apply titles_unique_empty | by apply Hstep].
Qed.

Lemma titles_unique_invariant_witness :
  titles_unique (db_after (serve (Create (json milk)) ∅)) ∧
  titles_unique (db_after (serve (Remove 1) ∅)) ∧
  titles_unique (db_after (serve (Replace 2 (json milk)) two_tasks)) ∧
  titles_unique (db_after (serve (Create (json milk)) two_tasks)).
Proof.
  split_and!.
  - apply (proj1 titles_unique_invariant). apply reachable_step, reachable_init.
  - apply (proj2 titles_unique_invariant). apply titles_unique_empty.
  - apply (proj2 titles_unique_invariant). apply titles_unique_two_tasks.
  - apply (proj2 titles_unique_invariant). apply titles_unique_two_tasks.
Defined.

(** C2. When some task already has the title of the payload, the create
    operation fails with the conflict error (HTTP 400) and leaves the table
    as it was: the same rows, the same number of rows, and no statement
    besides the look-up.  This is what [POST /items/] answers for every
    body that validates to that payload. *)
Theorem create_duplicate_title (d : Table) (item : ItemCreate.t) :
  has_title d (ItemCreate.title item) →
  let o := get_db (respond_item (create_item item)) d in
  response o = inl (HTTPException 400 "Item with this title already exists") ∧
  status_of (HTTPException 400 "Item with this title already exists") = 400 ∧
  db_after o = d ∧
  size (db_after o) = size d ∧
  statements o = [SELECT] ∧
  ∀ body, ItemCreate_validate body = inr item → POST_items body d = o.
Proof.
  intros Hd%title_taken_None o. subst o.
  rewrite create_item_run, Hd. split_and!; try done.
  intros body Hv. unfold POST_items. by rewrite Hv, create_item_run, Hd.
Qed.

Lemma create_duplicate_title_witness :
  response (POST_items milk one_task)
  = inl (HTTPException 400 "Item with this title already exists") ∧
  db_after (POST_items milk one_task) = one_task.
Proof.
  assert (has_title one_task "buy milk") as H.
  { exists 1, (Row.mk "buy milk" None false 2). split; reflexivity. }
  destruct (create_duplicate_title one_task (ItemCreate.mk "buy milk" None false 2) H)
    as (Hr & _ & Hd & _ & _ & Hb).
  rewrite (Hb milk eq_refl). by split.
Defined.



(** C4, as the code has it.  [title: str] makes the title required and
    nothing more.  A create request without a title (the key absent, or
    null) is refused by validation, with status 422, before any statement
    is issued and with the table as it was.  A title that is a string is
    never a reason for refusal, the empty string included: a request whose
    title is the empty string passes validation exactly when the same
    request with any other string as title does, and the title of the
    validated payload is the string sent. *)
Theorem title_required (body : ItemJson.t) (d : Table) :
  (ItemJson.title body = None ∨ ItemJson.title body = Some JNull →
     ∃ msg,
       POST_items_json body d = mkOutcome (inl (RequestValidationError msg)) d [] ∧
       status (POST_items_json body d) = 422) ∧
  (∀ title,
     let sent t := ItemJson.mk (Some (JValue t)) (ItemJson.description body)
                     (ItemJson.completed body) (ItemJson.priority body) in
     ((∃ item, ItemCreate_model_validate (sent "") = inr item) ↔
      (∃ item, ItemCreate_model_validate (sent title) = inr item)) ∧
     (∀ item, ItemCreate_model_validate (sent title) = inr item →
              ItemCreate.title item = title)).
Proof.
  split.
  - intros Hn. unfold status, POST_items_json, ItemCreate_model_validate.
    destruct Hn as [-> | ->]; cbn [title_field convert refuse response status_of];
      by eexists.
  - intros title sent. subst sent. unfold ItemCreate_model_validate.
    cbn [ItemJson.title ItemJson.description ItemJson.completed ItemJson.priority
         title_field convert].
    destruct (description_field _); [naive_solver|].
    destruct (completed_field _); [naive_solver|].
    destruct (priority_field _); naive_solver.
Qed.

Lemma title_required_witness :
  (∃ msg,
     POST_items_json (ItemJson.mk None None None (Some (JValue 2))) one_task
     = mkOutcome (inl (RequestValidationError msg)) one_task [] ∧
     status (POST_items_json (ItemJson.mk None None None (Some (JValue 2))) one_task)
     = 422) ∧
  ((∃ item, ItemCreate_model_validate (ItemJson.mk (Some (JValue "")) None None None)
            = inr item) ↔
   (∃ item, ItemCreate_model_validate (ItemJson.mk (Some (JValue "walk")) None None None)
            = inr item)).
Proof.
  split.
  - apply (title_required (ItemJson.mk None None None (Some (JValue 2))) one_task).
    left. reflexivity.
  - apply (proj2 (title_required (ItemJson.mk None None None None) ∅) "walk").
Defined.

(** C4 as stated fails: [title: str] (line 34) has no length constraint,
    so a create request whose title is the empty string is not refused; on
    an empty table it is answered with the new task and a row is
    inserted. *)
Lemma empty_title_is_created :
  let o := POST_items_json (ItemJson.mk (Some (JValue "")) None None None) ∅ in
  response o = inr (JItem (ItemOut.mk 1 "" None false 1)) ∧
  (∀ msg, response o ≠ inl (RequestValidationError msg)) ∧
  db_after o !! 1 = Some (Row.mk "" None false 1) ∧
  db_after o ≠ ∅ ∧
  statements o = [SELECT; INSERT; COMMIT; SELECT].
Proof.
  assert (POST_items_json (ItemJson.mk (Some (JValue "")) None None None) ∅
          = mkOutcome (inr (JItem (ItemOut.mk 1 "" None false 1)))
              (<[1 := Row.mk "" None false 1]> ∅) [SELECT; INSERT; COMMIT; SELECT]) as E.
  { unfold POST_items_json, ItemCreate_model_validate.
    cbn [ItemJson.title ItemJson.description ItemJson.completed ItemJson.priority
         title_field description_field completed_field priority_field convert].
    rewrite create_item_run. reflexivity. }
  cbv zeta. rewrite E. cbn [response db_after statements].
  by split_and!.
Qed.

(** C5. A create or update request whose priority is not 1, 2 or 3 is
    refused by validation before any statement is issued and with the table
    as it was; a priority that is 1, 2 or 3 passes the validator unchanged
    and is the priority of the validated payload. *)
Theorem priority_validated (body : ItemBody.t) (p : Z) :
  ItemBody.priority body = Some p →
  (¬ (p = 1 ∨ p = 2 ∨ p = 3) →
     ∃ msg, ∀ d item_id,
       POST_items body d = mkOutcome (inl (RequestValidationError msg)) d [] ∧
       PUT_item item_id body d = mkOutcome (inl (RequestValidationError msg)) d [] ∧
       status_of (RequestValidationError msg) = 422) ∧
  (p = 1 ∨ p = 2 ∨ p = 3 →
     validate_priority p = inr p ∧
     ∀ title, ItemBody.title body = Some title →
       ∃ item, ItemCreate_validate body = inr item ∧ ItemCreate.priority item = p).
Proof.
  intros Hp. rewrite <- priority_range. split.
  - intros Hout.
    destruct (ItemCreate_validate body) as [e|item] eqn:Hv.
    + assert (∃ msg, e = RequestValidationError msg) as [msg ->].
      { unfold ItemCreate_validate in Hv.
        destruct (ItemBody.title body); [|naive_solver].
        destruct (from_option _ _ _); naive_solver. }
      exists msg. intros d item_id. unfold POST_items, PUT_item. by rewrite Hv.
    + apply ItemCreate_validate_inr in Hv as (? & ? & _ & -> & Hin & _).
      rewrite Hp in Hin. done.
  - intros Hin. split; [by apply validate_priority_inr|].
    intros title Ht. eexists. split.
    + apply ItemCreate_validate_inr. exists title, p. rewrite Hp. by split_and!.
    + done.
Qed.

Lemma priority_validated_witness :
  (∃ msg, ∀ d item_id,
     POST_items (ItemBody.mk (Some "x") None None (Some 4)) d
     = mkOutcome (inl (RequestValidationError msg)) d [] ∧
     PUT_item item_id (ItemBody.mk (Some "x") None None (Some 4)) d
     = mkOutcome (inl (RequestValidationError msg)) d [] ∧
     status_of (RequestValidationError msg) = 422) ∧
  validate_priority 2 = inr 2.
Proof.
  split.
  - apply (priority_validated (ItemBody.mk (Some "x") None None (Some 4)) 4 eq_refl). lia.
  - apply (priority_validated milk 2 eq_refl). lia.
Defined.

Section listing.
Implicit Types (d : Table) (x y z : ItemOut.t).

#[global] Instance field_le_trans sort_by : Transitive (field_le sort_by).
Proof.
  intros x y z. unfold field_le. repeat case_decide; try done.
  - lia.
  - intros. by trans (ItemOut.title y).
  - auto.
  - lia.
Qed.

#[global] Instance requested_order_trans sort_by sort_order :
  Transitive (requested_order sort_by sort_order).
Proof.
  intros x y z. unfold requested_order. case_decide.
  - apply field_le_trans.
  - intros Hyx Hzy. by trans y.
Qed.


End listing.















(** * Further properties of the handlers *)

(** Case analysis on a request and on the path its handler takes. *)
Ltac missing_cases k :=
  unfold missing_id; destruct (decide (int64 k)) as [Hfit|Hfit].

Ltac serve_cases req d :=
  destruct req as [body|q|k|k body|k|]; cbn [serve];
  [ unfold POST_items_json;
    destruct (ItemCreate_model_validate body) as [e|item] eqn:Hv;
    [|rewrite create_item_run; destruct (title_taken d None _) eqn:Ht]
  | destruct (ListQuery_validate q) as [e|a] eqn:Hv;
    [ unfold GET_items; rewrite Hv
    | let Hb := fresh "Hb" in
      pose proof Hv as (_ & Hb & _)%ListQuery_validate_inr;
      apply sort_by_pattern_column in Hb as [c Hc];
      rewrite (GET_items_run d q a c Hv Hc);
      destruct (decide (int64 (ListArgs.skip a) ∧ int64 (ListArgs.limit a)))
        as [Hfit|Hfit] ]
  | rewrite GET_item_run; destruct (d !! k) as [r|] eqn:Hk; [|missing_cases k]
  | unfold PUT_item_json;
    destruct (ItemCreate_model_validate body) as [e|item] eqn:Hv;
    [|rewrite update_item_run; destruct (d !! k) as [r|] eqn:Hk;
      [destruct (decide (r = stored item)) as [Hr|Hr];
       [|destruct (title_taken d (Some k) _) eqn:Ht]|missing_cases k]]
  | rewrite DELETE_item_run; destruct (d !! k) as [r|] eqn:Hk; [|missing_cases k]
  | unfold GET_root ];
  cbn [refuse response db_after statements].

Lemma ItemCreate_validate_inl (body : ItemBody.t) (e : Exn) :
  ItemCreate_validate body = inl e → ∃ msg, e = RequestValidationError msg.
Proof.
  unfold ItemCreate_validate.
  destruct (ItemBody.title body); [|naive_solver].
  destruct (from_option _ _ _); naive_solver.
Qed.



(** X2. The read routes never write: whatever the query string or the id,
    a listing, a fetch or the greeting leaves the table as it was, and the
    statements it issues are SELECTs only. *)
Theorem reads_never_write (d : Table) (q : ListQuery.t) (k : Z) :
  db_after (GET_items q d) = d ∧
  db_after (GET_item k d) = d ∧
  db_after (GET_root d) = d ∧
  Forall (λ st, st = SELECT)
    (statements (GET_items q d) ++ statements (GET_item k d) ++ statements (GET_root d)).
Proof.
  assert (∃ qs, GET_items q d = mkOutcome (response (GET_items q d)) d qs ∧
                (qs = [] ∨ qs = [SELECT])) as (qs & -> & Hqs).
  { destruct (ListQuery_validate q) as [e|a] eqn:Hv.
    - exists []. unfold GET_items. rewrite Hv. by split; [|left].
    - pose proof Hv as (_ & Hb & _)%ListQuery_validate_inr.
      apply sort_by_pattern_column in Hb as [c Hc].
      rewrite (GET_items_run d q a c Hv Hc). case_decide.
      + exists [SELECT]. by split; [|right].
      + exists []. by split; [|left]. }
  rewrite GET_item_run. unfold missing_id. cbn [db_after statements GET_root].
  split_and!; [done|destruct (d !! k); [done|by case_decide]|done|].
  destruct Hqs as [-> | ->]; destruct (d !! k); try case_decide; by repeat constructor.
Qed.

(** X3. A request that is answered with an error leaves the table as it
    was: validation errors, the conflict of a create, not-found, and the
    refused commit of an update alike. *)
Theorem errors_leave_table (req : Request) (d : Table) (err : Exn) :
  response (serve req d) = inl err → db_after (serve req d) = d.
Proof. serve_cases req d; done. Qed.

Lemma errors_leave_table_witness :
  db_after (serve (Replace 2 (json milk)) two_tasks) = two_tasks.
Proof.
  apply (errors_leave_table (Replace 2 (json milk)) two_tasks IntegrityError).
  by vm_compute.
Defined.





Lemma create_success_form (d : Table) (body : ItemBody.t) (out : ItemOut.t) :
  response (POST_items body d) = inr (JItem out) →
  d !! ItemOut.id out = None ∧
  POST_items body d
  = mkOutcome (inr (JItem out)) (<[ItemOut.id out := row_shown out]> d)
      [SELECT; INSERT; COMMIT; SELECT].
Proof.
  unfold POST_items.
  destruct (ItemCreate_validate body) as [e|item] eqn:Hv; [done|].
  rewrite create_item_run. destruct (title_taken d None _); [done|].
  cbn [response]. intros [= <-]. split; [apply next_rowid_fresh|done].
Qed.

(** X6. A successful create writes one row and nothing else: the table
    after it is the table before it plus the new row under the returned
    id, which was not in use, so the number of tasks grows by one and
    every other id keeps its row. *)
Theorem create_adds_one_row (d : Table) (body : ItemBody.t) (out : ItemOut.t) :
  response (POST_items body d) = inr (JItem out) →
  d !! ItemOut.id out = None ∧
  db_after (POST_items body d) = <[ItemOut.id out := row_shown out]> d ∧
  size (db_after (POST_items body d)) = S (size d) ∧
  (∀ j, j ≠ ItemOut.id out → db_after (POST_items body d) !! j = d !! j) ∧
  statements (POST_items body d) = [SELECT; INSERT; COMMIT; SELECT].
Proof.
  intros [Hfresh ->]%create_success_form. cbn [db_after statements].
  split_and!; try done.
  - by apply map_size_insert_None.
  - intros j Hne. by apply lookup_insert_ne.
Qed.

Lemma create_adds_one_row_witness :
  db_after (POST_items walk one_task)
  = <[2 := Row.mk "walk" (Some "dog") true 1]> one_task ∧
  size (db_after (POST_items walk one_task)) = S (size one_task).
Proof.
  destruct (create_adds_one_row one_task walk (ItemOut.mk 2 "walk" (Some "dog") true 1))
    as (_ & H1 & H2 & _); [by vm_compute|].
  by split.
Defined.

(** X7. Deleting the task a create has just returned gives back the table
    the create started from. *)
Theorem create_then_delete (d : Table) (body : ItemBody.t) (out : ItemOut.t) :
  response (POST_items body d) = inr (JItem out) →
  response (DELETE_item (ItemOut.id out) (db_after (POST_items body d)))
  = inr (JMessage "Item deleted") ∧
  db_after (DELETE_item (ItemOut.id out) (db_after (POST_items body d))) = d.
Proof.
  intros [Hfresh ->]%create_success_form. cbn [db_after].
  rewrite DELETE_item_run, lookup_insert_eq. cbn [response db_after].
  split; [done|]. by rewrite delete_insert_eq, delete_id.
Qed.

Lemma create_then_delete_witness :
  db_after (DELETE_item 2 (db_after (POST_items walk one_task))) = one_task.
Proof.
  apply (create_then_delete one_task walk (ItemOut.mk 2 "walk" (Some "dog") true 1)).
  by vm_compute.
Defined.





(** X10. [update_item] has no pre-check on the title: when titles are
    unique and the payload carries the title of another task, the commit
    is refused by the UNIQUE constraint, the request ends in the uncaught
    [IntegrityError] (HTTP 500) and the table is as it was. *)
Theorem update_taken_title_refused (d : Table) (k j : Z) (r rj : Row.t)
    (body : ItemBody.t) (item : ItemCreate.t) :
  titles_unique d →
  ItemCreate_validate body = inr item →
  d !! k = Some r → d !! j = Some rj → j ≠ k →
  Row.title rj = ItemCreate.title item →
  response (PUT_item k body d) = inl IntegrityError ∧
  status (PUT_item k body d) = 500 ∧
  db_after (PUT_item k body d) = d.
Proof.
  intros Hu Hv Hk Hj Hne Ht. unfold status, PUT_item. rewrite Hv.
  by rewrite (update_item_taken d k r item j rj).
Qed.

Lemma update_taken_title_refused_witness :
  response (PUT_item 2 milk two_tasks) = inl IntegrityError ∧
  status (PUT_item 2 milk two_tasks) = 500 ∧
  db_after (PUT_item 2 milk two_tasks) = two_tasks.
Proof.
  apply (update_taken_title_refused two_tasks 2 1 (Row.mk "walk" (Some "dog") true 1)
           (Row.mk "buy milk" None false 2) milk (ItemCreate.mk "buy milk" None false 2));
    try reflexivity; [apply titles_unique_two_tasks | lia].
Defined.

(** X11. What a successful update answers is what a fetch of the same id
    answers afterwards: the record has the id of the request and the
    fields of the validated payload, and it is the row stored under that
    id. *)
Theorem update_then_fetch (d : Table) (k : Z) (body : ItemBody.t) (out : ItemOut.t) :
  response (PUT_item k body d) = inr (JItem out) →
  ItemOut.id out = k ∧
  ItemCreate_validate body
  = inr (ItemCreate.mk (ItemOut.title out) (ItemOut.description out)
           (ItemOut.completed out) (ItemOut.priority out)) ∧
  db_after (PUT_item k body d) !! k = Some (row_shown out) ∧
  response (GET_item k (db_after (PUT_item k body d))) = inr (JItem out).
Proof.
  unfold PUT_item.
  destruct (ItemCreate_validate body) as [e|item] eqn:Hv; [done|].
  rewrite update_item_run.
  destruct (d !! k) as [r|] eqn:Hk; [|unfold missing_id; by case_decide].
  destruct (decide (r = stored item)) as [->|Hr];
    [|destruct (title_taken d (Some k) _); [done|]];
    cbn [response db_after]; intros [= <-]; rewrite GET_item_run;
    rewrite ?lookup_insert_eq, ?Hk; by destruct item.
Qed.

Lemma update_then_fetch_witness :
  response (GET_item 2 (db_after (PUT_item 2 (ItemBody.mk (Some "run") None None (Some 3))
                                    two_tasks)))
  = inr (JItem (ItemOut.mk 2 "run" None false 3)).
Proof.
  apply (update_then_fetch two_tasks 2 (ItemBody.mk (Some "run") None None (Some 3))).
  by vm_compute.
Defined.

(** X12. An update is idempotent: sending the same PUT again gives the
    same answer and the same table as the first time, on every path
    (refused by validation, not found, refused commit, success). *)
Theorem update_idempotent (d : Table) (k : Z) (body : ItemBody.t) :
  let o1 := PUT_item k body d in
  let o2 := PUT_item k body (db_after o1) in
  response o2 = response o1 ∧ db_after o2 = db_after o1.
Proof.
  cbv zeta. unfold PUT_item.
  destruct (ItemCreate_validate body) as [e|item] eqn:Hv; [done|].
  rewrite (update_item_run d). destruct (d !! k) as [r|] eqn:Hk.
  - destruct (decide (r = stored item)) as [->|Hr];
      [|destruct (title_taken d (Some k) _) eqn:Ht];
      cbn [response db_after]; rewrite update_item_run.
    + by rewrite Hk, decide_True.
    + by rewrite Hk, decide_False, Ht.
    + by rewrite lookup_insert_eq, decide_True.
  - assert (db_after (missing_id d k) = d) as Hsame.
    { unfold missing_id. by case_decide. }
    by rewrite Hsame, update_item_run, Hk.
Qed.

(** X13. An update never adds or removes a task: whatever the id and the
    body, the set of ids is the same after a PUT. *)
Theorem update_keeps_ids (d : Table) (k : Z) (body : ItemBody.t) :
  dom (db_after (PUT_item k body d)) = dom d.
Proof.
  unfold PUT_item.
  destruct (ItemCreate_validate body) as [e|item]; [done|].
  rewrite update_item_run.
  destruct (d !! k) as [r|] eqn:Hk; [|unfold missing_id; by case_decide].
  case_decide; [done|]. destruct (title_taken d (Some k) _); [done|].
  cbn [db_after]. rewrite dom_insert_L. apply elem_of_dom_2 in Hk. set_solver.
Qed.

Lemma stored_priority_valid (body : ItemJson.t) (item : ItemCreate.t) :
  ItemCreate_model_validate body = inr item → Row.priority (stored item) ∈ [1; 2; 3].
Proof. apply ItemCreate_model_validate_priority. Qed.

Lemma priorities_valid_insert (d : Table) (j : Z) (rj : Row.t) :
  priorities_valid d → Row.priority rj ∈ [1; 2; 3] → priorities_valid (<[j := rj]> d).
Proof.
  intros Hp Hin i ri. rewrite lookup_insert. case_decide; [by intros [= <-]|apply Hp].
Qed.

(** X14. Every priority in the table is 1, 2 or 3: this holds of every
    reachable database and is preserved by every request, because the
    handlers store only validated payloads. *)
Theorem stored_priorities_valid :
  (∀ d, reachable d → priorities_valid d) ∧
  (∀ d req, priorities_valid d → priorities_valid (db_after (serve req d))).
Proof.
  assert (∀ d req, priorities_valid d → priorities_valid (db_after (serve req d)))
    as Hstep.
  { intros d req Hp. serve_cases req d; try done;
      eauto using priorities_valid_insert, stored_priority_valid.
    intros i ri [_ Hi]%lookup_delete_Some. by apply (Hp i). }
  split; [|done].
  induction 1 as [|d req _ IH]; [|by apply Hstep].
  intros i ri Hi. by rewrite lookup_empty in Hi.
Qed.

Lemma stored_priorities_valid_witness :
  priorities_valid (db_after (serve (Create (json walk)) ∅)) ∧
  priorities_valid (db_after (serve (Replace 1 (json milk)) ∅)).
Proof.
  split.
  - apply (proj1 stored_priorities_valid). apply reachable_step, reachable_init.
  - apply (proj2 stored_priorities_valid). intros i ri Hi. by rewrite lookup_empty in Hi.
Defined.

(** X15. A task in a successful response is a row of the table the request
    leaves behind: whichever route answers with a task (create, fetch,
    update), the row stored under the id of the answer has exactly the
    fields of the answer. *)
Theorem answered_task_is_stored (req : Request) (d : Table) (out : ItemOut.t) :
  response (serve req d) = inr (JItem out) →
  db_after (serve req d) !! ItemOut.id out = Some (row_shown out).
Proof.
  serve_cases req d; try done; intros [= <-]; cbn [shown ItemOut.id];
    rewrite ?lookup_insert_eq, ?Hk; first [by destruct item | by destruct r].
Qed.

Lemma answered_task_is_stored_witness :
  db_after (serve (Create (json walk)) one_task) !! 2
  = Some (Row.mk "walk" (Some "dog") true 1).
Proof.
  apply (answered_task_is_stored (Create (json walk)) one_task
           (ItemOut.mk 2 "walk" (Some "dog") true 1)).
  by vm_compute.
Defined.

(** X16. A task changes only through a PUT or a DELETE on its own id: any
    other request (a create, a read, an update or delete of another id)
    leaves the row of an existing task, and so what a fetch of it answers,
    as it was. *)
Theorem other_requests_spare_task (req : Request) (d : Table) (j : Z) (rj : Row.t) :
  d !! j = Some rj →
  spares req j →
  db_after (serve req d) !! j = Some rj ∧
  response (GET_item j (db_after (serve req d))) = response (GET_item j d).
Proof.
  intros Hj Hs.
  assert (db_after (serve req d) !! j = Some rj) as Hj'.
  { revert Hs. serve_cases req d; cbn [spares]; intros Hs; try done.
    - rewrite lookup_insert_ne; [done|]. intros Heq.
      by rewrite <- Heq, next_rowid_fresh in Hj.
    - by rewrite lookup_insert_ne.
    - by rewrite lookup_delete_ne. }
  split; [done|]. by rewrite !GET_item_run, Hj', Hj.
Qed.

Lemma other_requests_spare_task_witness :
  db_after (serve (Remove 2) two_tasks) !! 1 = Some (Row.mk "buy milk" None false 2) ∧
  response (GET_item 1 (db_after (serve (Remove 2) two_tasks)))
  = response (GET_item 1 two_tasks).
Proof.
  apply (other_requests_spare_task (Remove 2) two_tasks 1); [reflexivity|].
  simpl. lia.
Defined.

(** ** Listings *)

Section listing_facts.
Implicit Types (d : Table) (q : ListQuery.t) (a : ListArgs.t) (c : Column).

Lemma listing_run d q a c :
  ListQuery_validate q = inr a →
  getattr_Item (ListArgs.sort_by a) = inr c →
  int64 (ListArgs.skip a) →
  int64 (ListArgs.limit a) →
  listing q d =
    show <$> limit (ListArgs.limit a) (offset (ListArgs.skip a)
      (order_by (if decide (ListArgs.sort_order a = "asc") then asc c else desc c)
         (select d))).
Proof.
  intros Hv Hc Hs Hl. unfold listing.
  by rewrite (GET_items_run d q a c Hv Hc), decide_True.
Qed.

(** A number outside the signed 64-bit range stops the listing at the
    driver: there are no tasks in the response. *)
Lemma listing_overflow d q a :
  ListQuery_validate q = inr a →
  ¬ (int64 (ListArgs.skip a) ∧ int64 (ListArgs.limit a)) →
  listing q d = [].
Proof.
  intros Hv Hout. pose proof Hv as (_ & Hb & _)%ListQuery_validate_inr.
  apply sort_by_pattern_column in Hb as [c Hc]. unfold listing.
  by rewrite (GET_items_run d q a c Hv Hc), decide_False.
Qed.

Lemma listing_refused d q e :
  ListQuery_validate q = inl e → listing q d = [].
Proof. intros Hv. unfold listing, GET_items. by rewrite Hv. Qed.

Lemma limit_offset_sublist {A} n m (l : list A) : limit n (offset m l) `sublist_of` l.
Proof.
  unfold limit, offset. destruct (n <? 0).
  - apply sublist_drop.
  - etrans; [apply sublist_take|apply sublist_drop].
Qed.

Lemma length_limit_offset {A} n m (l : list A) :
  length (limit n (offset m l)) =
    if n <? 0 then (length l - Z.to_nat m)%nat
    else (Z.to_nat n `min` (length l - Z.to_nat m))%nat.
Proof.
  unfold limit, offset. destruct (n <? 0); by rewrite ?length_take, length_drop.
Qed.

Lemma length_select d : length (select d) = size d.
Proof. by rewrite select_Permutation, length_map_to_list. Qed.

Lemma length_order_by o d : length (order_by o (select d)) = size d.
Proof. by rewrite order_by_Permutation, length_select. Qed.

Lemma NoDup_fst_select d : NoDup (select d).*1.
Proof. rewrite select_Permutation. apply NoDup_fst_map_to_list. Qed.

Lemma show_id (kr : Z * Row.t) : ItemOut.id (show kr) = kr.1.
Proof. done. Qed.

Lemma listing_ids_NoDup d q : NoDup (ItemOut.id <$> listing q d).
Proof.
  destruct (ListQuery_validate q) as [e|a] eqn:Hv.
  { rewrite (listing_refused d q e Hv). constructor. }
  destruct (decide (int64 (ListArgs.skip a) ∧ int64 (ListArgs.limit a)))
    as [[Hs Hl]|Hout]; [|rewrite (listing_overflow d q a Hv Hout); constructor].
  pose proof Hv as (_ & Hb & _)%ListQuery_validate_inr.
  apply sort_by_pattern_column in Hb as [c Hc].
  rewrite (listing_run d q a c Hv Hc Hs Hl), <- list_fmap_compose.
  eapply sublist_NoDup; [|apply fmap_sublist, limit_offset_sublist].
  change (ItemOut.id ∘ show) with (fst : Z * Row.t → Z).
  rewrite order_by_Permutation. apply NoDup_fst_select.
Qed.
End listing_facts.

(** X17. Every task of a listing is a stored row, shown with the id it is
    stored under; no id occurs twice; a listing is never longer than the
    table.  This holds for every query string, accepted or not. *)
Theorem listed_tasks_are_stored (q : ListQuery.t) (d : Table) :
  (∀ out, out ∈ listing q d → d !! ItemOut.id out = Some (row_shown out)) ∧
  NoDup (ItemOut.id <$> listing q d) ∧
  (length (listing q d) ≤ size d)%nat.
Proof.
  destruct (ListQuery_validate q) as [e|a] eqn:Hv.
  { rewrite (listing_refused d q e Hv). split_and!.
    - by intros out ?%not_elem_of_nil.
    - constructor.
    - simpl. lia. }
  destruct (decide (int64 (ListArgs.skip a) ∧ int64 (ListArgs.limit a)))
    as [[Hs Hl]|Hout].
  2: { rewrite (listing_overflow d q a Hv Hout). split_and!.
       - by intros out ?%not_elem_of_nil.
       - constructor.
       - simpl. lia. }
  pose proof Hv as (_ & Hb & _)%ListQuery_validate_inr.
  apply sort_by_pattern_column in Hb as [c Hc].
  rewrite (listing_run d q a c Hv Hc Hs Hl).
  set (o := if decide _ then _ else _).
  assert (limit (ListArgs.limit a) (offset (ListArgs.skip a) (order_by o (select d)))
            `sublist_of` order_by o (select d)) as Hsub by apply limit_offset_sublist.
  split_and!.
  - intros out [[i ri] [-> Hin]]%list_elem_of_fmap.
    eapply elem_of_sublist in Hin; [|done].
    rewrite order_by_Permutation in Hin. apply elem_of_select in Hin.
    by destruct ri.
  - subst o. rewrite <- (listing_run d q a c Hv Hc Hs Hl). apply listing_ids_NoDup.
  - rewrite length_fmap. apply sublist_length in Hsub.
    by rewrite length_order_by in Hsub.
Qed.



(** X19. Consecutive pages join up: with the same sort field and direction
    and non-negative numbers whose sum is a signed 64-bit integer, the page
    of [n] tasks from [skip] followed by the page of [m] tasks from
    [skip + n] is the page of [n + m] tasks from [skip]. *)
Theorem pages_join (d : Table) (sort_by sort_order : option string) (skip n m : Z) :
  0 ≤ skip → 0 ≤ n → 0 ≤ m → skip + n + m < 2 ^ 63 →
  listing (ListQuery.mk (Some skip) (Some n) sort_by sort_order) d ++
  listing (ListQuery.mk (Some (skip + n)) (Some m) sort_by sort_order) d
  = listing (ListQuery.mk (Some skip) (Some (n + m)) sort_by sort_order) d.
Proof.
  intros Hs Hn Hm Hfit.
  destruct (ListQuery_validate (ListQuery.mk None None sort_by sort_order))
    as [e|a0] eqn:Hv0.
  { assert (∀ s l, ListQuery_validate (ListQuery.mk s l sort_by sort_order) = inl e)
      as Hall.
    { intros s l. revert Hv0. unfold ListQuery_validate. cbn.
      destruct (sort_by_pattern _); cbn; [|done].
      by destruct (sort_order_pattern _). }
    by rewrite !(listing_refused d _ e (Hall _ _)). }
  apply ListQuery_validate_inr in Hv0 as (-> & Hb & Ho).
  cbn [ListArgs.sort_by ListArgs.sort_order ListQuery.sort_by ListQuery.sort_order]
    in Hb, Ho.
  destruct (sort_by_pattern_column _ Hb) as [c Hc].
  assert (∀ s l, ListQuery_validate (ListQuery.mk (Some s) (Some l) sort_by sort_order)
                 = inr (ListArgs.mk s l (default "id" sort_by) (default "asc" sort_order)))
    as Hall.
  { intros s l. by apply ListQuery_validate_inr. }
  assert (∀ z, 0 ≤ z → z ≤ skip + n + m → int64 z) as Hin.
  { intros z ??. unfold int64. lia. }
  rewrite !(listing_run d _ _ c (Hall _ _) Hc) by (apply Hin; simpl; lia).
  cbn [ListArgs.skip ListArgs.limit ListArgs.sort_order].
  set (rows := order_by _ _). rewrite <- fmap_app. f_equal.
  unfold limit, offset.
  rewrite !(proj2 (Z.ltb_ge _ _)) by lia.
  rewrite !Z2Nat.inj_add by lia.
  rewrite <- (drop_drop rows). apply take_take_drop.
Qed.

Lemma pages_join_witness :
  listing (ListQuery.mk (Some 0) (Some 1) (Some "title") (Some "desc")) two_tasks ++
  listing (ListQuery.mk (Some (0 + 1)) (Some 1) (Some "title") (Some "desc")) two_tasks
  = listing (ListQuery.mk (Some 0) (Some (1 + 1)) (Some "title") (Some "desc")) two_tasks.
Proof. apply pages_join; lia. Defined.

(** The bound on the sum is needed: past it the joined page is refused by
    the driver while its two parts are served. *)
Example joined_page_overflow :
  listing (ListQuery.mk (Some 0) (Some (2 ^ 63 - 1)) None None) two_tasks ++
  listing (ListQuery.mk (Some (0 + (2 ^ 63 - 1))) (Some 1) None None) two_tasks
  ≠ listing (ListQuery.mk (Some 0) (Some (2 ^ 63 - 1 + 1)) None None) two_tasks.
Proof.
  rewrite (listing_overflow two_tasks (ListQuery.mk (Some 0) (Some (2 ^ 63 - 1 + 1)) None None)
             (ListArgs.mk 0 (2 ^ 63 - 1 + 1) "id" "asc") eq_refl).
  2: { intros [_ Hl]. unfold int64 in Hl. cbn [ListArgs.limit] in Hl. lia. }
  intros Heq%(f_equal length). revert Heq.
  rewrite length_app.
  rewrite (listing_run two_tasks (ListQuery.mk (Some 0) (Some (2 ^ 63 - 1)) None None)
             (ListArgs.mk 0 (2 ^ 63 - 1) "id" "asc") c_id eq_refl eq_refl).
  2, 3: unfold int64; cbn [ListArgs.limit ListArgs.skip]; lia.
  rewrite length_fmap, length_limit_offset, length_order_by.
  cbn [ListArgs.limit ListArgs.skip].
  assert (size two_tasks = 2%nat) as -> by by vm_compute.
  destruct (2 ^ 63 - 1 <? 0) eqn:E; [apply Z.ltb_lt in E|]; cbn [length]; lia.
Qed.

Section direction_facts.
Implicit Types (d : Table) (c : Column) (rows : list (Z * Row.t)).

(** On rows that the column tells apart, sorting downwards is the reverse
    of sorting upwards. *)
Lemma order_by_desc_reverse c rows :
  (∀ a b, a ∈ rows → b ∈ rows → asc c a b = true → asc c b a = true → a = b) →
  order_by (desc c) rows = reverse (order_by (asc c) rows).
Proof.
  intros Hinj.
  assert (Transitive (λ a b : Z * Row.t, Is_true (desc c a b))) as Htrans.
  { intros a b e Hab%Is_true_true Hbe%Is_true_true. apply Is_true_true.
    by apply (desc_trans c a b e). }
  apply (Sorted_unique_strong (λ a b, Is_true (desc c a b))).
  - intros a b Ha Hb Hab%Is_true_true Hba%Is_true_true.
    rewrite order_by_Permutation in Ha.
    rewrite reverse_Permutation, order_by_Permutation in Hb.
    by apply Hinj.
  - apply order_by_Sorted, desc_total.
  - apply (Sorted_reverse (λ a b, Is_true (asc c a b))).
    apply order_by_Sorted, asc_total.
  - by rewrite reverse_Permutation, !order_by_Permutation.
Qed.

Lemma select_key_inj d a b : a ∈ select d → b ∈ select d → a.1 = b.1 → a = b.
Proof.
  destruct a as [i ri], b as [j rj]. intros Ha%elem_of_select Hb%elem_of_select.
  simpl. intros ->. congruence.
Qed.

(** A page that starts at the first task and is at least as long as the
    table is the whole sorted table. *)
Lemma limit_offset_all {A} (l : Z) (rows : list A) :
  l < 0 ∨ Z.of_nat (length rows) ≤ l → limit l (offset 0 rows) = rows.
Proof.
  intros Hl. unfold limit, offset. simpl.
  destruct (l <? 0) eqn:E; [done|]. apply Z.ltb_ge in E.
  apply take_ge. lia.
Qed.
End direction_facts.

(** X20. Listing downwards is listing upwards read backwards, when the
    sort field tells the tasks apart: for [sort_by=id] always, and for
    [sort_by=title] when titles are unique, the whole table listed with
    [sort_order=desc] is the reverse of the whole table listed with
    [sort_order=asc]. *)
Theorem desc_listing_reverses_asc (d : Table) (sort_by : string) (l : Z) :
  sort_by = "id" ∨ (sort_by = "title" ∧ titles_unique d) →
  l < 0 ∨ Z.of_nat (size d) ≤ l →
  listing (ListQuery.mk None (Some l) (Some sort_by) (Some "desc")) d
  = reverse (listing (ListQuery.mk None (Some l) (Some sort_by) (Some "asc")) d).
Proof.
  intros Hsb Hl.
  assert (∃ c, getattr_Item sort_by = inr c ∧ sort_by_pattern sort_by = true ∧
               ∀ a b, a ∈ select d → b ∈ select d →
                      asc c a b = true → asc c b a = true → a = b)
    as (c & Hc & Hb & Hinj).
  { destruct Hsb as [-> | [-> Hu]].
    - exists c_id. split_and!; [done..|].
      intros a b Ha Hb. cbn [asc]. rewrite !Z.leb_le. intros ??.
      apply (select_key_inj d); [done..|lia].
    - exists c_title. split_and!; [done..|].
      intros [i ri] [j rj] Ha Hb Hab Hba. apply (select_key_inj d); [done..|].
      apply elem_of_select in Ha, Hb. cbn [asc] in Hab, Hba.
      apply (Hu i j ri rj); [done..|]. by apply String.leb_antisym. }
  assert (∀ so, sort_order_pattern so = true →
            ListQuery_validate (ListQuery.mk None (Some l) (Some sort_by) (Some so))
            = inr (ListArgs.mk 0 l sort_by so)) as Hv.
  { intros so Ho. by apply ListQuery_validate_inr. }
  destruct (decide (int64 l)) as [Hfit|Hout].
  2: { rewrite (listing_overflow d _ _ (Hv "desc" eq_refl)) by by intros [_ ?].
       by rewrite (listing_overflow d _ _ (Hv "asc" eq_refl)) by by intros [_ ?]. }
  assert (int64 0) as Hzero by (unfold int64; lia).
  rewrite (listing_run d _ _ c (Hv "desc" eq_refl) Hc Hzero Hfit),
          (listing_run d _ _ c (Hv "asc" eq_refl) Hc Hzero Hfit).
  cbn [ListArgs.skip ListArgs.limit ListArgs.sort_order].
  rewrite decide_False, decide_True by done.
  rewrite !limit_offset_all by by rewrite length_order_by.
  by rewrite order_by_desc_reverse, fmap_reverse.
Qed.

Lemma desc_listing_reverses_asc_witness :
  listing (ListQuery.mk None (Some 10) (Some "id") (Some "desc")) two_tasks
  = reverse (listing (ListQuery.mk None (Some 10) (Some "id") (Some "asc")) two_tasks).
Proof.
  apply desc_listing_reverses_asc; [by left|].
  right. by vm_compute.
Defined.




Lemma Sorted_le_NoDup_lt (l : list Z) :
  Sorted Z.le l → NoDup l → StronglySorted Z.lt l.
Proof.
  intros Hs%Sorted_StronglySorted; [|apply _].
  induction Hs as [|x l Hs IH Hall]; intros Hnd; constructor.
  - apply IH. by apply NoDup_cons_1_2 in Hnd.
  - apply NoDup_cons_1_1 in Hnd. rewrite Forall_forall in Hall |- *.
    intros y Hy. specialize (Hall y Hy).
    assert (x ≠ y) by (intros ->; done). lia.
Qed.

(** X22. A listing without parameters is the listing with [skip=0],
    [limit=10], [sort_by=id], [sort_order=asc]: it has ten tasks, or all of
    them when the table has fewer, and their ids are strictly
    increasing. *)
Theorem default_listing (d : Table) :
  listing (ListQuery.mk None None None None) d
  = listing (ListQuery.mk (Some 0) (Some 10) (Some "id") (Some "asc")) d ∧
  length (listing (ListQuery.mk None None None None) d) = (10 `min` size d)%nat ∧
  StronglySorted Z.lt (ItemOut.id <$> listing (ListQuery.mk None None None None) d).
Proof.
  split_and!.
  - done.
  - rewrite (listing_run d (ListQuery.mk None None None None)
               (ListArgs.mk 0 10 "id" "asc") c_id eq_refl eq_refl)
      by (unfold int64; simpl; lia).
    rewrite length_fmap, length_limit_offset, length_order_by.
    cbn [ListArgs.limit ListArgs.skip]. simpl. by rewrite Nat.sub_0_r.
  - apply Sorted_le_NoDup_lt; [|apply listing_ids_NoDup].
    rewrite (listing_run d (ListQuery.mk None None None None)
               (ListArgs.mk 0 10 "id" "asc") c_id eq_refl eq_refl)
      by (unfold int64; simpl; lia).
    cbn [ListArgs.limit ListArgs.skip ListArgs.sort_order].
    rewrite decide_True by done. rewrite <- list_fmap_compose.
    assert (Transitive (λ a b : Z * Row.t, Is_true (asc c_id a b))) as Htrans.
    { intros a b e Hab%Is_true_true Hbe%Is_true_true. apply Is_true_true.
      by apply (asc_trans c_id a b e). }
    eapply Sorted_fmap; [|apply (Sorted_limit_offset (λ a b, Is_true (asc c_id a b)))].
    + intros a b Hab%Is_true_true. by apply Z.leb_le in Hab.
    + apply order_by_Sorted, asc_total.
Qed.

(** X23. Putting back what a fetch returned changes nothing: when the
    body carries the fields of the stored row (whose priority is valid),
    the update answers with the same record as the fetch and leaves the
    table as it was. *)
Theorem put_back_fetched (d : Table) (k : Z) (r : Row.t) :
  d !! k = Some r →
  Row.priority r ∈ [1; 2; 3] →
  let body := ItemBody.mk (Some (Row.title r)) (Row.description r)
                (Some (Row.completed r)) (Some (Row.priority r)) in
  response (PUT_item k body d) = response (GET_item k d) ∧
  db_after (PUT_item k body d) = d.
Proof.
  intros Hk Hp body.
  assert (ItemCreate_validate body
          = inr (ItemCreate.mk (Row.title r) (Row.description r) (Row.completed r)
                   (Row.priority r))) as Hv.
  { apply ItemCreate_validate_inr. by eexists _, _. }
  unfold PUT_item. rewrite Hv, update_item_run, GET_item_run, Hk.
  rewrite decide_True; [done|by destruct r].
Qed.

Lemma put_back_fetched_witness :
  db_after (PUT_item 2 (ItemBody.mk (Some "walk") (Some "dog") (Some true) (Some 1))
              two_tasks) = two_tasks.
Proof.
  apply (put_back_fetched two_tasks 2 (Row.mk "walk" (Some "dog") true 1) eq_refl).
  simpl. apply priority_range. lia.
Defined.
